(** * ts-command-line: the CommandLineParser execution driver, and the
      synchronous external-command helper of Utilities

    A shallow embedding of
      - src/libraries/ts-command-line/src/CommandLineParser.ts
        (CommandLineParserExitError, CommandLineParser.addAction, getAction,
        tryGetAction, execute, executeWithoutErrorHandling, onExecute);
      - Utilities.executeCommand.

    JavaScript exceptions and promises are written out: a synchronous
    computation is a state transformer that ends in [Return] or [Throw], a
    promise is given by the way it settles ([Resolved] or [Rejected]). *)

From stdpp Require Import base option list strings pretty gmap fin_maps.
From Stdlib Require Import Ascii ZArith.

Local Open Scope Z_scope.

(** The character that delimits the name in the message of [getAction]. *)
Definition doubleQuote : string := String (Ascii.ascii_of_nat 34) EmptyString.

(** JavaScript truthiness of a string: every string but the empty one. *)
Definition truthyString (s : string) : bool :=
  match s with
  | EmptyString => false
  | String _ _ => true
  end.

(* ================================================================== *)
(** * Utilities.executeCommand *)
(* ================================================================== *)

Module Utilities.

(** The [error] of a [SpawnSyncReturns]: a system error whose [errno] the
    code compares with a string. *)
Record SpawnFault := { errno : string; faultMessage : string }.

Record SpawnSyncReturns := { error : option SpawnFault; status : option Z }.

Record SpawnSyncOptions :=
  { cwd : string; shell : bool; stdio : option (list Z) }.

(** What [executeCommand] can throw: the error of the spawn result, or the
    TypeError of the engine when a property of [undefined] is read. *)
Inductive Thrown :=
| TypeError (message : string)
| SpawnError (e : SpawnFault).

Inductive Completion (A : Type) :=
| Return (a : A)
| Throw (t : Thrown).
Arguments Return {A} a.
Arguments Throw {A} t.

(** One call of [child_process.spawnSync], as it is logged. *)
Record SpawnCall :=
  { spawnedCommand : string; spawnedArgs : list string;
    spawnedOptions : SpawnSyncOptions }.

(** Computations that spawn: the log of the calls made so far is threaded. *)
Definition Spawning (A : Type) : Type :=
  list SpawnCall -> list SpawnCall * Completion A.

Definition ret {A} (a : A) : Spawning A := fun log => (log, Return a).
Definition throw {A} (t : Thrown) : Spawning A := fun log => (log, Throw t).
Definition bind {A B} (m : Spawning A) (k : A -> Spawning B) : Spawning B :=
  fun log =>
    match m log with
    | (log', Return a) => k a log'
    | (log', Throw t) => (log', Throw t)
    end.

Notation "'let*' x ':=' m 'in' k" := (bind m (fun x => k))
  (at level 10, x name, m at level 200, k at level 200, only parsing).

Section ExecuteCommand.

(** [child_process.spawnSync] belongs to the platform: what a spawn gives
    is a parameter. *)
Variable spawnSync :
  string -> list string -> SpawnSyncOptions -> SpawnSyncReturns.

Definition spawn (command : string) (args : list string)
    (options : SpawnSyncOptions) : Spawning SpawnSyncReturns :=
  fun log =>
    (log ++ [ {| spawnedCommand := command; spawnedArgs := args;
                 spawnedOptions := options |} ],
     Return (spawnSync command args options)).

(** [(result.error as any).errno]: reading a property of [undefined]
    throws. *)
Definition readErrno (result : SpawnSyncReturns) : Spawning string :=
  match error result with
  | None => throw (TypeError "Cannot read property 'errno' of undefined")
  | Some e => ret (errno e)
  end.

Definition executeCommand (command : string) (args : list string)
    (workingDirectory : string) (suppressOutput : bool) : Spawning unit :=
  let options :=
    {| cwd := workingDirectory; shell := true;
       stdio := if suppressOutput then None else Some [0; 1; 2] |} in
  let* result := spawn command args options in
  let* code := readErrno result in
  let* result := (if String.eqb code "ENOENT"
                  then spawn (command +:+ ".cmd") args options
                  else ret result) in
  match error result with
  | Some e => throw (SpawnError e)
  | None => ret tt
  end.

(** The commands spawned, in order. *)
Definition spawnedCommands (log : list SpawnCall) : list string :=
  spawnedCommand <$> log.

End ExecuteCommand.

(** The options [executeCommand] spawns with. *)
Definition optionsFor (workingDirectory : string) (suppressOutput : bool)
    : SpawnSyncOptions :=
  {| cwd := workingDirectory; shell := true;
     stdio := if suppressOutput then None else Some [0; 1; 2] |}.

(** A platform on which every spawn succeeds. *)
Definition spawnAlwaysSucceeds :
    string -> list string -> SpawnSyncOptions -> SpawnSyncReturns :=
  fun _ _ _ => {| error := None; status := Some 0 |}.

(** ** The other helpers of Utilities *)

(** How a helper that throws [new Error(message)] ends. *)
Inductive Outcome (A : Type) :=
| Returned (a : A)
| Raised (message : string).
Arguments Returned {A} a.
Arguments Raised {A} message.

(** [s.indexOf(c)] for a one-character pattern: [None] stands for -1. *)
Fixpoint indexOf (c : ascii) (s : string) : option nat :=
  match s with
  | EmptyString => None
  | String c' rest =>
      if Ascii.eqb c' c then Some 0%nat else S <$> indexOf c rest
  end.

(** [s.substr(start, length)] and [s.substr(start)]. *)
Definition substr (start len : nat) (s : string) : string :=
  String.substring start len s.

Definition substrFrom (start : nat) (s : string) : string :=
  String.substring start (String.length s - start) s.

Record ScopedPackageName := { scope : string; name : string }.

Definition parseScopedPackgeName (scopedName : string)
    : Outcome ScopedPackageName :=
  if negb (String.eqb (substr 0 1 scopedName) "@") then
    Returned {| scope := EmptyString; name := scopedName |}
  else
    match indexOf "/" scopedName with
    | Some slashIndex =>
        Returned {| scope := substr 0 slashIndex scopedName;
                    name := substrFrom (slashIndex + 1) scopedName |}
    | None => Raised ("Invalid scoped name: " +:+ scopedName)
    end.

(** The scoped name a pair of parts stands for. *)
Definition scopedNameOf (parts : ScopedPackageName) : string :=
  match scope parts with
  | EmptyString => name parts
  | _ => scope parts +:+ "/" +:+ name parts
  end.

(** The files that exist, each with the time value of its [mtime]: what
    [fs.existsSync] and [fs.statSync] read. *)
Record Stats := { mtime : Z }.

Definition existsSync (files : gmap string Z) (path : string) : bool :=
  bool_decide (is_Some (files !! path)).

Definition statSync (files : gmap string Z) (path : string)
    : Outcome Stats :=
  match files !! path with
  | Some t => Returned {| mtime := t |}
  | None => Raised ("ENOENT: no such file or directory, stat '" +:+ path
                    +:+ "'")
  end.

(** The loop of isFileTimestampCurrent over the input files. *)
Fixpoint inputsAreOlder (files : gmap string Z) (outputStats : Stats)
    (inputFilenames : list string) : Outcome bool :=
  match inputFilenames with
  | [] => Returned true
  | inputFilename :: rest =>
      if negb (existsSync files inputFilename) then Returned false
      else
        match statSync files inputFilename with
        | Raised message => Raised message
        | Returned inputStats =>
            if mtime outputStats <? mtime inputStats then Returned false
            else inputsAreOlder files outputStats rest
        end
  end.

Definition isFileTimestampCurrent (files : gmap string Z)
    (outputFilename : string) (inputFilenames : list string)
    : Outcome bool :=
  if negb (existsSync files outputFilename) then Returned false
  else
    match statSync files outputFilename with
    | Raised message => Raised message
    | Returned outputStats =>
        inputsAreOlder files outputStats inputFilenames
    end.

(** One turn of the loop of createFolderWithRetry, as the platform decides
    it: [fs.mkdirSync] creates the folder, or it throws an error with a
    message and the clock is read. *)
Inductive Attempt (Time : Type) :=
| Created
| Failed (message : string) (currentTime : Time).
Arguments Created {Time}.
Arguments Failed {Time} message currentTime.

(** What a run of createFolderWithRetry leaves: the number of calls of
    [fs.mkdirSync], the lines written with [console.log], the outcome. *)
Record FolderRun := {
  mkdirCalls : nat;
  logged : list string;
  outcome : Outcome unit
}.

(** The second half of the message of the errors that createFolderWithRetry
    and dangerouslyDeletePath throw. *)
Definition fileLockHint : string :=
  "Often this is caused by a file lock from a process such as your text"
  +:+ " editor, command prompt, or " +:+ doubleQuote +:+ "gulp serve"
  +:+ doubleQuote.

Section CreateFolderWithRetry.

(** The values of [getTimeInMs] are floating-point numbers: the type of the
    readings and the two computations on them are parameters.
    [waitedTooLong currentTime startTime] is
    [currentTime - startTime > maxWaitTimeMs], with the limit of 7 seconds;
    [totalSeconds currentTime startTime] is
    [((currentTime - startTime) / 1000.0).toFixed(2)]. [EOL] is [os.EOL]. *)
Variable Time : Type.
Variable waitedTooLong : Time -> Time -> bool.
Variable totalSeconds : Time -> Time -> string.
Variable EOL : string.

(** The [while (true)] loop, over the turns the platform gives; [None]
    when they run out with the loop still going. The result carries the
    number of [mkdirSync] calls and, for a normal end, [looped]. *)
Fixpoint retryLoop (startTime : Time) (attempts : list (Attempt Time))
    (calls : nat) (looped : bool) : option (nat * Outcome bool) :=
  match attempts with
  | [] => None
  | Created :: _ => Some (S calls, Returned looped)
  | Failed message currentTime :: rest =>
      if waitedTooLong currentTime startTime then
        Some (S calls, Raised (message +:+ EOL +:+ fileLockHint))
      else retryLoop startTime rest (S calls) true
  end.

Definition createFolderWithRetry (folderName : string) (startTime : Time)
    (attempts : list (Attempt Time)) (endTime : Time) : option FolderRun :=
  match retryLoop startTime attempts 0 false with
  | None => None
  | Some (calls, Raised message) =>
      Some {| mkdirCalls := calls; logged := [];
              outcome := Raised message |}
  | Some (calls, Returned looped) =>
      Some {| mkdirCalls := calls;
              logged :=
                if looped
                then ["createFolderWithRetry() stalled for "
                      +:+ totalSeconds endTime startTime +:+ " seconds"]
                else [];
              outcome := Returned tt |}
  end.

(** The failures of a list of turns that came within the wait limit. *)
Definition withinLimit (startTime : Time) (turn : Attempt Time) : Prop :=
  match turn with
  | Created => False
  | Failed _ currentTime => waitedTooLong currentTime startTime = false
  end.

End CreateFolderWithRetry.

End Utilities.

(* ================================================================== *)
(** * The container keys of ApiFunction and ApiEnum *)
(* ================================================================== *)

Module ApiModel.

Section ContainerKeys.

(** The members [Function] and [Enum] of the enum ApiItemKind, whose file
    (items/ApiItem.ts) is not among the sources: parameters. *)
Variable ApiItemKind_Function ApiItemKind_Enum : string.

(** ApiFunction.getContainerKey. The overload index is a natural number;
    the template literal writes it in decimal. *)
Definition ApiFunction_getContainerKey (name : string) (overloadIndex : N)
    : string :=
  name +:+ "|" +:+ ApiItemKind_Function +:+ "|" +:+ pretty overloadIndex.

(** ApiEnum.getContainerKey *)
Definition ApiEnum_getContainerKey (name : string) : string :=
  name +:+ "|" +:+ ApiItemKind_Enum.

End ContainerKeys.

End ApiModel.

(* ================================================================== *)
(** * CommandLineParser: values, errors, promises *)
(* ================================================================== *)

(** What is thrown, or makes the reason of a rejection. JavaScript lets
    any value be thrown: the exit signal of the grammar engine,
    [CommandLineParserExitError]; every other object, of which the driver
    reads the [message], a string, only ([Error]: an absent message is the
    empty string, as [new Error(undefined).message] is, and a thrown string,
    number or boolean, whose [message] is [undefined], behaves like an
    [Error] without message); and the two values that have no properties
    at all, [undefined] and [null]. *)
Inductive JsError :=
| CommandLineParserExitError (code : Z) (text : string)
| Error (text : string)
| Undefined
| Null.

(** [err.message], for the values that have properties. *)
Definition message (err : JsError) : string :=
  match err with
  | CommandLineParserExitError _ text => text
  | Error text => text
  | Undefined | Null => EmptyString
  end.

(** The TypeError of the engine for [err.message] on [undefined] or
    [null]. *)
Definition noProperties (err : JsError) : option JsError :=
  match err with
  | Undefined =>
      Some (Error "Cannot read property 'message' of undefined")
  | Null => Some (Error "Cannot read property 'message' of null")
  | _ => None
  end.

(** How a synchronous call ends. *)
Inductive Completion (A : Type) :=
| Return (a : A)
| Throw (err : JsError).
Arguments Return {A} a.
Arguments Throw {A} err.

(** How a promise settles. *)
Inductive Promise (A : Type) :=
| Resolved (a : A)
| Rejected (err : JsError).
Arguments Resolved {A} a.
Arguments Rejected {A} err.

(** A line written by [console.log] or [console.error]; [RedText s] is the
    line [colors.red(s)]. *)
Inductive ConsoleLine :=
| Text (s : string)
| RedText (s : string).

(** The part of the Node process the driver reads and writes. *)
Record Process := {
  argv : list string;
  exitCode : option Z;
  stdout : list ConsoleLine;
  stderr : list ConsoleLine
}.

(** [!process.exitCode]: true when no code is set or the code is 0. *)
Definition exitCodeFalsy (p : Process) : bool :=
  match exitCode p with
  | None => true
  | Some c => c =? 0
  end.

Definition setExitCode (c : Z) (p : Process) : Process :=
  {| argv := argv p; exitCode := Some c;
     stdout := stdout p; stderr := stderr p |}.

Definition consoleLog (line : ConsoleLine) (p : Process) : Process :=
  {| argv := argv p; exitCode := exitCode p;
     stdout := stdout p ++ [line]; stderr := stderr p |}.

Definition consoleError (line : ConsoleLine) (p : Process) : Process :=
  {| argv := argv p; exitCode := exitCode p;
     stdout := stdout p; stderr := stderr p ++ [line] |}.

(** [String.prototype.trim]. A string is the sequence of the UTF-8 bytes
    of the JavaScript string. The characters stripped are the WhiteSpace
    and LineTerminator characters of ECMAScript: U+0009 to U+000D and
    U+0020 (one byte), U+00A0 (two bytes), and U+1680, U+2000 to U+200A,
    U+2028, U+2029, U+202F, U+205F, U+3000 and U+FEFF (three bytes). *)
Definition isWhiteSpace (c : ascii) : bool :=
  let n := nat_of_ascii c in
  ((n =? 32) || ((9 <=? n) && (n <=? 13)))%nat.

Definition isWhiteSpace2 (c1 c2 : ascii) : bool :=
  ((nat_of_ascii c1 =? 194) && (nat_of_ascii c2 =? 160))%nat.

Definition isWhiteSpace3 (c1 c2 c3 : ascii) : bool :=
  let n1 := nat_of_ascii c1 in
  let n2 := nat_of_ascii c2 in
  let n3 := nat_of_ascii c3 in
  (((n1 =? 225) && (n2 =? 154) && (n3 =? 128))
   || ((n1 =? 226) && (n2 =? 128)
       && (((128 <=? n3) && (n3 <=? 138))
           || (n3 =? 168) || (n3 =? 169) || (n3 =? 175)))
   || ((n1 =? 226) && (n2 =? 129) && (n3 =? 159))
   || ((n1 =? 227) && (n2 =? 128) && (n3 =? 128))
   || ((n1 =? 239) && (n2 =? 187) && (n3 =? 191)))%nat.

(** The string without the white space at its front; [two] and [three]
    recognise the characters of two and three bytes (their bytes come in
    the other order when the string is read from its end). *)
Fixpoint stripFront (two : ascii -> ascii -> bool)
    (three : ascii -> ascii -> ascii -> bool) (s : string) : string :=
  match s with
  | EmptyString => EmptyString
  | String c1 rest1 =>
      if isWhiteSpace c1 then stripFront two three rest1
      else
        match rest1 with
        | EmptyString => s
        | String c2 rest2 =>
            if two c1 c2 then stripFront two three rest2
            else
              match rest2 with
              | EmptyString => s
              | String c3 rest3 =>
                  if three c1 c2 c3 then stripFront two three rest3 else s
              end
        end
  end.

Definition trimStart (s : string) : string :=
  stripFront isWhiteSpace2 isWhiteSpace3 s.

Fixpoint reverseOnto (s acc : string) : string :=
  match s with
  | EmptyString => acc
  | String c rest => reverseOnto rest (String c acc)
  end.

Definition trimEnd (s : string) : string :=
  reverseOnto
    (stripFront (fun c2 c1 => isWhiteSpace2 c1 c2)
                (fun c3 c2 c1 => isWhiteSpace3 c1 c2 c3)
                (reverseOnto s EmptyString))
    EmptyString.

Definition trim (s : string) : string := trimEnd (trimStart s).

(* ================================================================== *)
(** * The parameter capability and the actions *)
(* ================================================================== *)

Inductive ParameterKind := Flag | StringParameter | Integer | Choice | StringList.

Inductive ParameterValue :=
| VUndefined
| VBoolean (b : bool)
| VString (s : string)
| VInteger (z : Z)
| VStringList (l : list string).

(** Modelled from the spec: CommandLineParameterProvider.ts is not among the
    sources. A parameter declaration, as section 3 of the design gives it. *)
Record ParameterDeclaration := {
  parameterName : string;
  kind : ParameterKind;
  required : bool;
  allowedValues : list string;
  defaultValue : ParameterValue
}.

(** [ICommandLineParserData]: the flat map the grammar engine returns, with
    the sub-command selector under the key [action]. *)
Record ICommandLineParserData := {
  action : string;
  rawValues : gmap string ParameterValue
}.

(** Modelled from the spec: the conversion of the engine's raw map into the
    values behind the handles of one capability (the body of the absent
    CommandLineParameterProvider._processParsedData): every declared name
    gets its parsed value, or its default when the engine reported none. *)
Definition valueFor (data : ICommandLineParserData)
    (d : ParameterDeclaration) : ParameterValue :=
  match rawValues data !! parameterName d with
  | Some v => v
  | None => defaultValue d
  end.

Definition convertParsedData (declared : list ParameterDeclaration)
    (data : ICommandLineParserData) : gmap string ParameterValue :=
  list_to_map ((fun d => (parameterName d, valueFor data d)) <$> declared).

(** Modelled from the spec: reading the value of a handle (absent
    CommandLineParameterProvider.ts). Before parsing has completed for the
    owner ([None]) the read is a usage fault. *)
Definition readHandle (parsed : option (gmap string ParameterValue))
    (name : string) : Completion ParameterValue :=
  match parsed with
  | None => Throw (Error "The parameter value was read before parsing")
  | Some values => Return (default VUndefined (values !! name))
  end.

(** Modelled from the spec: CommandLineAction.ts is not among the sources.
    A CommandLineAction object, with the members CommandLineParser.ts uses.
    The record holds what never changes after construction: the identity of
    the object, its readonly [actionName], [summary] and [documentation], the
    parameters its define hook declares, and its asynchronous body
    [_execute]. The body sees the parsed values of the action and the
    process; it throws synchronously, or returns a promise that settles. The
    mutable part of the object, the parsed values, lives in the store of the
    world, under [objectId]: every holder of the reference sees one state. *)
Record CommandLineAction := {
  objectId : nat;
  actionName : string;
  summary : string;
  documentation : string;
  parameters : list ParameterDeclaration;
  _execute : gmap string ParameterValue -> Process ->
             Process * Completion (Promise unit)
}.

Record ICommandLineParserOptions := {
  toolFilename : string;
  toolDescription : string
}.

(** The grammar engine, argparse, is outside the repository: its operations
    are an interface. [G] is the state of the ArgumentParser with its
    sub-parsers. [_buildParser] is what [action._buildParser(subParser)]
    does to the engine, which it changes in place: it gives the grammar it
    leaves and, when it throws (it can throw after it has added the
    sub-parser), the error. [parseArgs] may write to the streams of the
    process and either returns the parsed data or throws. *)
Class ArgumentParser (G : Type) := {
  createParser : ICommandLineParserOptions -> G;
  _buildParser : CommandLineAction -> G -> G * option JsError;
  formatHelp : G -> string;
  parseArgs : G -> list string -> Process ->
              Process * (JsError + ICommandLineParserData)
}.

Section Parser.

Context {G : Type} `{Engine : ArgumentParser G}.

(** The fields of a CommandLineParser object. [globalParameters] is what
    [onDefineParameters] of the subclass declares; [_parsedGlobals] is the
    state of the inherited parameter provider. *)
Record CommandLineParser := {
  _options : ICommandLineParserOptions;
  selectedAction : option CommandLineAction;
  _argumentParser : G;
  _actions : list CommandLineAction;
  _actionsByName : gmap string CommandLineAction;
  _executed : bool;
  globalParameters : list ParameterDeclaration;
  _parsedGlobals : option (gmap string ParameterValue)
}.

(** The parser, the mutable state of the action objects, the process. *)
Record World := {
  parser : CommandLineParser;
  actionValues : gmap nat (gmap string ParameterValue);
  process : Process
}.

Definition withParser (f : CommandLineParser -> CommandLineParser)
    (w : World) : World :=
  {| parser := f (parser w); actionValues := actionValues w;
     process := process w |}.

Definition withProcess (f : Process -> Process) (w : World) : World :=
  {| parser := parser w; actionValues := actionValues w;
     process := f (process w) |}.

Definition withActionValues
    (f : gmap nat (gmap string ParameterValue) ->
         gmap nat (gmap string ParameterValue)) (w : World) : World :=
  {| parser := parser w; actionValues := f (actionValues w);
     process := process w |}.

Definition setExecuted (b : bool) (p : CommandLineParser) :=
  {| _options := _options p; selectedAction := selectedAction p;
     _argumentParser := _argumentParser p; _actions := _actions p;
     _actionsByName := _actionsByName p; _executed := b;
     globalParameters := globalParameters p;
     _parsedGlobals := _parsedGlobals p |}.

Definition setSelectedAction (a : option CommandLineAction)
    (p : CommandLineParser) :=
  {| _options := _options p; selectedAction := a;
     _argumentParser := _argumentParser p; _actions := _actions p;
     _actionsByName := _actionsByName p; _executed := _executed p;
     globalParameters := globalParameters p;
     _parsedGlobals := _parsedGlobals p |}.

Definition setParsedGlobals (v : option (gmap string ParameterValue))
    (p : CommandLineParser) :=
  {| _options := _options p; selectedAction := selectedAction p;
     _argumentParser := _argumentParser p; _actions := _actions p;
     _actionsByName := _actionsByName p; _executed := _executed p;
     globalParameters := globalParameters p;
     _parsedGlobals := v |}.

Definition setArgumentParser (g : G) (p : CommandLineParser) :=
  {| _options := _options p; selectedAction := selectedAction p;
     _argumentParser := g; _actions := _actions p;
     _actionsByName := _actionsByName p; _executed := _executed p;
     globalParameters := globalParameters p;
     _parsedGlobals := _parsedGlobals p |}.

(** [this._actions.push(action)] *)
Definition pushAction (a : CommandLineAction) (p : CommandLineParser) :=
  {| _options := _options p; selectedAction := selectedAction p;
     _argumentParser := _argumentParser p; _actions := _actions p ++ [a];
     _actionsByName := _actionsByName p; _executed := _executed p;
     globalParameters := globalParameters p;
     _parsedGlobals := _parsedGlobals p |}.

(** [this._actionsByName.set(action.actionName, action)] *)
Definition setActionByName (a : CommandLineAction) (p : CommandLineParser) :=
  {| _options := _options p; selectedAction := selectedAction p;
     _argumentParser := _argumentParser p; _actions := _actions p;
     _actionsByName := <[actionName a := a]> (_actionsByName p);
     _executed := _executed p;
     globalParameters := globalParameters p;
     _parsedGlobals := _parsedGlobals p |}.

(** ** Synchronous code over the world *)

Definition M (A : Type) : Type := World -> World * Completion A.

Definition ret {A} (a : A) : M A := fun w => (w, Return a).
Definition throw {A} (err : JsError) : M A := fun w => (w, Throw err).
Definition bind {A B} (m : M A) (k : A -> M B) : M B :=
  fun w =>
    match m w with
    | (w', Return a) => k a w'
    | (w', Throw err) => (w', Throw err)
    end.
Definition gets {A} (f : World -> A) : M A := fun w => (w, Return (f w)).
Definition modify (f : World -> World) : M unit :=
  fun w => (f w, Return tt).

(** [try { body } catch (err) { handler }] *)
Definition tryCatch {A} (body : M A) (handler : JsError -> M A) : M A :=
  fun w =>
    match body w with
    | (w', Return a) => (w', Return a)
    | (w', Throw err) => handler err w'
    end.

(** [p.then(onFulfilled)] and [p.catch(onRejected)], for a promise given by
    its settlement: a callback that throws rejects the new promise. *)
Definition settle {A} (m : M A) : M (Promise A) :=
  fun w =>
    match m w with
    | (w', Return a) => (w', Return (Resolved a))
    | (w', Throw err) => (w', Return (Rejected err))
    end.

Definition promiseThen {A B} (p : Promise A) (onFulfilled : A -> M B)
    : M (Promise B) :=
  match p with
  | Resolved a => settle (onFulfilled a)
  | Rejected err => ret (Rejected err)
  end.

Definition promiseCatch {A} (p : Promise A) (onRejected : JsError -> M A)
    : M (Promise A) :=
  match p with
  | Resolved a => ret (Resolved a)
  | Rejected err => settle (onRejected err)
  end.

End Parser.

Arguments CommandLineParser G : clear implicits.
Arguments World G : clear implicits.
Arguments M G A : clear implicits.

Declare Scope driver_scope.
Delimit Scope driver_scope with driver.
Notation "'let*' x ':=' m 'in' k" := (bind m (fun x => k))
  (at level 10, x name, m at level 200, k at level 200, only parsing)
  : driver_scope.
Notation "m ';;' k" := (bind m (fun _ => k))
  (at level 100, k at level 200, right associativity, only parsing)
  : driver_scope.

(* ================================================================== *)
(** * CommandLineParser: the operations *)
(* ================================================================== *)

Section Driver.

Context {G : Type} `{Engine : ArgumentParser G}.
Local Open Scope driver_scope.

(** The constructor: no action, nothing executed, nothing selected. *)
Definition newParser (options : ICommandLineParserOptions)
    (globals : list ParameterDeclaration) : CommandLineParser G :=
  {| _options := options; selectedAction := None;
     _argumentParser := createParser options; _actions := [];
     _actionsByName := ∅; _executed := false;
     globalParameters := globals; _parsedGlobals := None |}.

Definition newWorld (options : ICommandLineParserOptions)
    (globals : list ParameterDeclaration) (p : Process) : World G :=
  {| parser := newParser options globals; actionValues := ∅;
     process := p |}.

Definition addAction (a : CommandLineAction) : M G unit :=
  let* g := gets (fun w => _argumentParser (parser w)) in
  modify (withParser (setArgumentParser (fst (_buildParser a g)))) ;;
  match snd (_buildParser a g) with
  | Some err => throw err
  | None => ret tt
  end ;;
  modify (withParser (pushAction a)) ;;
  modify (withParser (setActionByName a)).

Definition tryGetAction (name : string) : M G (option CommandLineAction) :=
  gets (fun w => _actionsByName (parser w) !! name).

Definition notDefined (name : string) : JsError :=
  Error ("The action " +:+ doubleQuote +:+ name +:+ doubleQuote
         +:+ " was not defined").

Definition getAction (name : string) : M G CommandLineAction :=
  let* found := tryGetAction name in
  match found with
  | None => throw (notDefined name)
  | Some a => ret a
  end.

(** [this._argumentParser.printHelp()] *)
Definition printHelp : M G unit :=
  let* g := gets (fun w => _argumentParser (parser w)) in
  modify (withProcess (consoleLog (Text (formatHelp g)))).

(** [this._argumentParser.parseArgs(args)] *)
Definition parseArgsM (args : list string) : M G ICommandLineParserData :=
  fun w =>
    match parseArgs (_argumentParser (parser w)) args (process w) with
    | (p', inr data) => (withProcess (fun _ => p') w, Return data)
    | (p', inl err) => (withProcess (fun _ => p') w, Throw err)
    end.

(** [this._processParsedData(data)], inherited by the parser. *)
Definition _processParsedData (data : ICommandLineParserData) : M G unit :=
  modify (withParser (fun p =>
    setParsedGlobals (Some (convertParsedData (globalParameters p) data)) p)).

(** [action._processParsedData(data)] *)
Definition Action_processParsedData (a : CommandLineAction)
    (data : ICommandLineParserData) : M G unit :=
  modify (withActionValues
            (<[objectId a := convertParsedData (parameters a) data]>)).

(** [action._execute()]: the body runs on the values parsed for it. *)
Definition Action_execute (a : CommandLineAction) : M G (Promise unit) :=
  fun w =>
    let '(p', c) :=
      _execute a (default ∅ (actionValues w !! objectId a)) (process w) in
    (withProcess (fun _ => p') w, c).

(** [return this.selectedAction!._execute();] *)
Definition onExecute : M G (Promise unit) :=
  let* selected := gets (fun w => selectedAction (parser w)) in
  match selected with
  | Some a => Action_execute a
  | None => throw (Error "Cannot read property '_execute' of undefined")
  end.

(** The loop over [this._actions], left at the first match. *)
Fixpoint dispatch (data : ICommandLineParserData)
    (actions : list CommandLineAction) : M G unit :=
  match actions with
  | [] => ret tt
  | a :: rest =>
      if String.eqb (actionName a) (action data) then
        modify (withParser (setSelectedAction (Some a))) ;;
        Action_processParsedData a data
      else dispatch data rest
  end.

Definition alreadyExecuted : JsError :=
  Error "execute() was already called for this parser instance".

(** The body of the [try] of executeWithoutErrorHandling. *)
Definition tryBlock (args : option (list string)) : M G (Promise unit) :=
  let* executed := gets (fun w => _executed (parser w)) in
  (if executed then throw alreadyExecuted else ret tt) ;;
  modify (withParser (setExecuted true)) ;;
  let* args := match args with
               | Some args => ret args
               | None => gets (fun w => drop 2 (argv (process w)))
               end in
  if (length args =? 0)%nat then
    printHelp ;;
    ret (Resolved tt)
  else
    let* data := parseArgsM args in
    _processParsedData data ;;
    let* actions := gets (fun w => _actions (parser w)) in
    dispatch data actions ;;
    let* selected := gets (fun w => selectedAction (parser w)) in
    match selected with
    | None => throw (Error "Unrecognized action")
    | Some _ => onExecute
    end.

(** The [catch] of executeWithoutErrorHandling. *)
Definition recover (err : JsError) : M G (Promise unit) :=
  match err with
  | CommandLineParserExitError code _ =>
      if code =? 0 then
        (if truthyString (message err)
         then modify (withProcess (consoleLog (Text (message err))))
         else ret tt) ;;
        ret (Resolved tt)
      else ret (Rejected err)
  | Error _ | Undefined | Null => ret (Rejected err)
  end.

Definition executeWithoutErrorHandling (args : option (list string))
    : M G (Promise unit) :=
  tryCatch (tryBlock args) recover.

(** The callback of [.catch] in execute. *)
Definition report (err : JsError) : M G bool :=
  match err with
  | CommandLineParserExitError code _ =>
      (if truthyString (message err)
       then modify (withProcess (consoleError (Text (message err))))
       else ret tt) ;;
      let* unset := gets (fun w => exitCodeFalsy (process w)) in
      (if unset then modify (withProcess (setExitCode code)) else ret tt)
  | Error _ | Undefined | Null =>
      match noProperties err with
      | Some typeError => throw typeError
      | None => ret tt
      end ;;
      let text :=
        trim (if truthyString (message err) then message err
              else "An unknown error occurred") in
      modify (withProcess (consoleError (RedText ("Error: " +:+ text)))) ;;
      let* unset := gets (fun w => exitCodeFalsy (process w)) in
      (if unset then modify (withProcess (setExitCode 1)) else ret tt)
  end ;;
  ret false.

Definition execute (args : option (list string)) : M G (Promise bool) :=
  let* p := executeWithoutErrorHandling args in
  let* p := promiseThen p (fun _ => ret true) in
  promiseCatch p report.

End Driver.

(* ================================================================== *)
(** * Notions used to state the properties *)
(* ================================================================== *)

(** The world a call leaves, whatever its completion. *)
Definition after {G A} (m : M G A) (w : World G) : World G := fst (m w).

Section Notions.

Context {G : Type} `{Engine : ArgumentParser G}.
Local Open Scope driver_scope.

(** The argument vector a call works on: the one given, or the arguments
    of the process without its first two entries. *)
Definition effectiveArgs (args : option (list string)) (w : World G)
    : list string :=
  match args with
  | Some args => args
  | None => drop 2 (argv (process w))
  end.

Definition nameIs (name : string) (a : CommandLineAction) : bool :=
  String.eqb (actionName a) name.

(** The first and the last action of the ordered registry with a name. *)
Definition firstNamed (name : string) (actions : list CommandLineAction)
    : option CommandLineAction :=
  find (nameIs name) actions.

Definition lastNamed (name : string) (actions : list CommandLineAction)
    : option CommandLineAction :=
  find (nameIs name) (reverse actions).

(** The by-name map is what the [set] calls of [addAction] make of the
    ordered registry. *)
Definition byName (actions : list CommandLineAction)
    : gmap string CommandLineAction :=
  foldl (fun m a => <[actionName a := a]> m) ∅ actions.

Definition registryInvariant (w : World G) : Prop :=
  _actionsByName (parser w) = byName (_actions (parser w)).

(** The two execution entry points, with one result type. *)
Inductive EntryPoint := ViaExecute | ViaExecuteWithoutErrorHandling.

Definition asBoolean (p : Promise unit) : Promise bool :=
  match p with
  | Resolved _ => Resolved true
  | Rejected err => Rejected err
  end.

Definition call (entry : EntryPoint) (args : option (list string))
    : M G (Promise bool) :=
  match entry with
  | ViaExecute => execute args
  | ViaExecuteWithoutErrorHandling =>
      let* p := executeWithoutErrorHandling args in
      ret (asBoolean p)
  end.

(** The fault a caller receives from a call: thrown, or as a rejection. *)
Definition faultOf {A} (r : Completion (Promise A)) : option JsError :=
  match r with
  | Throw err => Some err
  | Return (Rejected err) => Some err
  | Return (Resolved _) => None
  end.

(** A series of calls on one parser, with the completion of each. *)
Fixpoint callAll (calls : list (EntryPoint * option (list string)))
    (w : World G) : list (EntryPoint * Completion (Promise bool)) :=
  match calls with
  | [] => []
  | (entry, args) :: rest =>
      (entry, snd (call entry args w))
        :: callAll rest (after (call entry args) w)
  end.

(** How the single-use fault shows at each entry point: a rejection with
    the error itself, or, through [execute], the result [false]. *)
Definition refusedAsUsed (r : EntryPoint * Completion (Promise bool))
    : Prop :=
  match fst r with
  | ViaExecuteWithoutErrorHandling =>
      snd r = Return (Rejected alreadyExecuted)
  | ViaExecute => snd r = Return (Resolved false)
  end.

(** What [report] of [execute] does to the process for a fault. *)
Definition reported (err : JsError) (p : Process) : Process :=
  match err with
  | CommandLineParserExitError code text =>
      let p := if truthyString text then consoleError (Text text) p
               else p in
      if exitCodeFalsy p then setExitCode code p else p
  | Error text =>
      let p := consoleError
                 (RedText ("Error: " +:+
                           trim (if truthyString text then text
                                 else "An unknown error occurred"))) p in
      if exitCodeFalsy p then setExitCode 1 p else p
  | Undefined | Null => p
  end.

(** How [report] ends: it throws on a value without properties. *)
Definition reportEnds (err : JsError) : Completion bool :=
  match noProperties err with
  | Some typeError => Throw typeError
  | None => Return false
  end.

(** The promise a [then] or [catch] makes of the way its callback ends. *)
Definition promiseOf {A} (c : Completion A) : Promise A :=
  match c with
  | Return a => Resolved a
  | Throw err => Rejected err
  end.

(** Two worlds with the same registry and grammar. *)
Definition sameRegistry (w w' : World G) : Prop :=
  _actions (parser w') = _actions (parser w) /\
  _actionsByName (parser w') = _actionsByName (parser w) /\
  _argumentParser (parser w') = _argumentParser (parser w).

(** The world in which the body of the selected action starts: the flag
    set, the process as the engine left it, the global values and the
    values of the action converted, the action selected. *)
Definition dispatched (p' : Process) (data : ICommandLineParserData)
    (a : CommandLineAction) (w : World G) : World G :=
  withActionValues
    (<[objectId a := convertParsedData (parameters a) data]>)
    (withParser (setSelectedAction (Some a))
      (withParser
         (fun p => setParsedGlobals
                     (Some (convertParsedData (globalParameters p) data)) p)
         (withProcess (fun _ => p')
            (withParser (setExecuted true) w)))).

(** A second call that hands the single-use fault to its caller, thrown
    or as a rejection. *)
Definition secondCallPropagates (first second : EntryPoint)
    (args1 args2 : option (list string)) (w : World G) : Prop :=
  faultOf (snd (call second args2 (after (call first args1) w))) =
  Some alreadyExecuted.

(** A registration that is refused: it throws and leaves the world. *)
Definition refusesRegistration (a : CommandLineAction) (w : World G)
    : Prop :=
  exists err, addAction a w = (w, Throw err).

(** The exit code after a failure with code [c]: a nonzero code set
    before stays. *)
Definition exitCodeAfter (c : Z) (before : option Z) : option Z :=
  match before with
  | Some old => if old =? 0 then Some c else Some old
  | None => Some c
  end.

(** The worlds a program reaches from a new parser: by registering
    actions, by calls of the entry points, and by whatever else happens to
    the process. *)
Inductive Reachable : World G -> Prop :=
| reach_new options globals p :
    Reachable (newWorld options globals p)
| reach_addAction a w :
    Reachable w -> Reachable (after (addAction a) w)
| reach_call entry args w :
    Reachable w -> Reachable (after (call entry args) w)
| reach_process f w :
    Reachable w -> Reachable (withProcess f w).

End Notions.

(* ================================================================== *)
(** * A small grammar engine and a tool, for the examples *)
(* ================================================================== *)

(** An engine that knows the tool name and the sub-commands added so far.
    It accepts [-h] (prints the help and leaves with code 0, as argparse
    does) and a known sub-command followed by flags [--name]; everything
    else is a grammar error with code 2. [_buildParser] never fails in it. *)
Record SubCommands := { prog : string; commands : list string }.

Fixpoint flagsOf (tokens : list string) : gmap string ParameterValue :=
  match tokens with
  | [] => ∅
  | String "-"%char (String "-"%char name) :: rest =>
      <[name := VBoolean true]> (flagsOf rest)
  | _ :: rest => flagsOf rest
  end.

Definition usageOf (g : SubCommands) : string :=
  "usage: " +:+ prog g +:+ " [-h] <command> ...".

#[export] Instance simpleEngine : ArgumentParser SubCommands := {|
  createParser options := {| prog := toolFilename options; commands := [] |};
  _buildParser a g :=
    ({| prog := prog g; commands := commands g ++ [actionName a] |}, None);
  formatHelp g := usageOf g;
  parseArgs g args p :=
    match args with
    | [] => (p, inl (CommandLineParserExitError 2 "too few arguments"))
    | first :: rest =>
        if String.eqb first "-h" then
          (consoleLog (Text (usageOf g)) p,
           inl (CommandLineParserExitError 0 EmptyString))
        else if bool_decide (first ∈ commands g) then
          (p, inr {| action := first; rawValues := flagsOf rest |})
        else
          (consoleError (Text (usageOf g)) p,
           inl (CommandLineParserExitError 2 ("invalid choice: " +:+ first)))
    end
|}.

Definition verboseFlag : ParameterDeclaration :=
  {| parameterName := "verbose"; kind := Flag; required := false;
     allowedValues := []; defaultValue := VBoolean false |}.

(** An action whose body resolves after one line of output. *)
Definition buildAction : CommandLineAction :=
  {| objectId := 1; actionName := "build"; summary := "Builds";
     documentation := "Builds the project"; parameters := [verboseFlag];
     _execute := fun _ p => (consoleLog (Text "building") p,
                             Return (Resolved tt)) |}.

(** A second object with the name of [buildAction]. *)
Definition otherBuildAction : CommandLineAction :=
  {| objectId := 2; actionName := "build"; summary := "Builds again";
     documentation := "Another build"; parameters := [];
     _execute := fun _ p => (p, Return (Resolved tt)) |}.

(** An action whose promise is rejected with an exit signal of code 0. *)
Definition quitAction : CommandLineAction :=
  {| objectId := 3; actionName := "quit"; summary := "Quits";
     documentation := "Leaves early"; parameters := [];
     _execute := fun _ p =>
       (p, Return (Rejected (CommandLineParserExitError 0 "bye"))) |}.

(** An action that sets the exit code itself and then fails. *)
Definition failAction : CommandLineAction :=
  {| objectId := 4; actionName := "fail"; summary := "Fails";
     documentation := "Fails with code 7"; parameters := [];
     _execute := fun _ p =>
       (setExitCode 7 p, Return (Rejected (Error "  boom "))) |}.

(** An action whose promise is rejected without a reason, as
    [Promise.reject()] does. *)
Definition abortAction : CommandLineAction :=
  {| objectId := 5; actionName := "abort"; summary := "Aborts";
     documentation := "Gives up without a reason"; parameters := [];
     _execute := fun _ p => (p, Return (Rejected Undefined)) |}.

Definition toolOptions : ICommandLineParserOptions :=
  {| toolFilename := "tool"; toolDescription := "An example tool" |}.

Definition emptyProcess : Process :=
  {| argv := ["node"; "tool.js"]; exitCode := None;
     stdout := []; stderr := [] |}.

Definition freshTool : World SubCommands :=
  newWorld toolOptions [] emptyProcess.

(** The tool with [build], [quit] and [fail] registered. *)
Definition tool : World SubCommands :=
  after (addAction failAction)
    (after (addAction quitAction) (after (addAction buildAction) freshTool)).

(** The tool with [abort] registered as well. *)
Definition toolWithAbort : World SubCommands :=
  after (addAction abortAction) tool.

(** The tool with two actions named [build]. *)
Definition toolWithDuplicate : World SubCommands :=
  after (addAction otherBuildAction) (after (addAction buildAction) freshTool).

(* ================================================================== *)
(** * Properties of the driver *)
(* ================================================================== *)

(* ================================================================== *)
(** * More of the parser: the [actions] getter, a series of registrations *)
(* ================================================================== *)

Section Registering.

Context {G : Type} `{Engine : ArgumentParser G}.
Local Open Scope driver_scope.

(** [get actions()] *)
Definition actions : M G (list CommandLineAction) :=
  gets (fun w => _actions (parser w)).

(** The [addAction] calls a tool makes one after the other when it starts;
    the first one that throws ends the series. *)
Fixpoint addActions (l : list CommandLineAction) : M G unit :=
  match l with
  | [] => ret tt
  | a :: rest => addAction a ;; addActions rest
  end.

End Registering.

(** The example tool with a grammar that also knows a sub-command [ghost],
    for which no action is registered. *)
Definition toolWithGhostCommand : World SubCommands :=
  withParser
    (setArgumentParser {| prog := "tool"; commands := ["build"; "ghost"] |})
    (after (addAction buildAction) freshTool).

(** ** The ordered registry and the by-name map *)

Section RegistryFacts.

Implicit Types (a : CommandLineAction) (name : string).
Implicit Types (actions : list CommandLineAction).

Lemma nameIs_true name a : nameIs name a = true <-> actionName a = name.
Proof. unfold nameIs. apply String.eqb_eq. Qed.

Lemma nameIs_false name a : nameIs name a = false <-> actionName a <> name.
Proof. unfold nameIs. apply String.eqb_neq. Qed.

Lemma find_app_first {A} (f : A -> bool) (l1 l2 : list A) :
  find f (l1 ++ l2) =
  match find f l1 with
  | Some x => Some x
  | None => find f l2
  end.
Proof.
  induction l1 as [|x l1 IH]; simpl; [reflexivity|].
  destruct (f x); [reflexivity | exact IH].
Qed.

(** No action of a list has the name: the search finds nothing. *)
Lemma firstNamed_absent name actions :
  name ∉ actionName <$> actions -> firstNamed name actions = None.
Proof.
  unfold firstNamed.
  induction actions as [|x rest IH]; simpl; intros Hnot; [reflexivity|].
  apply not_elem_of_cons in Hnot as [Hx Hrest].
  destruct (nameIs name x) eqn:Hn.
  - apply nameIs_true in Hn. congruence.
  - apply IH, Hrest.
Qed.

Lemma firstNamed_found name actions a :
  firstNamed name actions = Some a -> a ∈ actions /\ actionName a = name.
Proof.
  unfold firstNamed. intros Hf. apply find_some in Hf as [Hin Hn].
  split; [by apply list_elem_of_In | by apply nameIs_true].
Qed.

(** The first action with a name, behind actions of other names. *)
Lemma firstNamed_behind name (front rest : list CommandLineAction) a :
  name ∉ actionName <$> front ->
  actionName a = name ->
  firstNamed name (front ++ a :: rest) = Some a.
Proof.
  intros Hfront Ha. unfold firstNamed. rewrite find_app_first.
  fold (firstNamed name front). rewrite firstNamed_absent by done.
  simpl. apply nameIs_true in Ha. rewrite Ha. reflexivity.
Qed.

(** The last action with a name, before actions of other names. *)
Lemma lastNamed_before name (front behind : list CommandLineAction) a :
  name ∉ actionName <$> behind ->
  actionName a = name ->
  lastNamed name (front ++ a :: behind) = Some a.
Proof.
  intros Hbehind Ha. unfold lastNamed.
  rewrite reverse_app, reverse_cons, <- app_assoc.
  apply firstNamed_behind; [|done].
  rewrite fmap_reverse. by rewrite elem_of_reverse.
Qed.

(** With names that are all different, each registered action is both the
    first and the last of its name. *)
Lemma firstNamed_unique actions a :
  NoDup (actionName <$> actions) ->
  a ∈ actions ->
  firstNamed (actionName a) actions = Some a.
Proof.
  intros Hnodup Hin.
  apply list_elem_of_split in Hin as (front & rest & ->).
  rewrite fmap_app, fmap_cons in Hnodup.
  apply NoDup_app in Hnodup as (_ & Hdisjoint & _).
  apply firstNamed_behind; [|done].
  intros Hfront. apply (Hdisjoint _ Hfront). left.
Qed.

Lemma lastNamed_unique actions a :
  NoDup (actionName <$> actions) ->
  a ∈ actions ->
  lastNamed (actionName a) actions = Some a.
Proof.
  intros Hnodup Hin. unfold lastNamed.
  apply firstNamed_unique.
  - by rewrite fmap_reverse, reverse_Permutation.
  - by apply elem_of_reverse.
Qed.

(** What the successive [set] calls leave under a name: the last action
    registered with it. *)
Lemma foldl_set_lookup actions (m : gmap string CommandLineAction) name :
  foldl (fun m a => <[actionName a := a]> m) m actions !! name =
  match lastNamed name actions with
  | Some a => Some a
  | None => m !! name
  end.
Proof.
  unfold lastNamed. revert m.
  induction actions as [|x rest IH]; intros m; simpl; [reflexivity|].
  rewrite IH, reverse_cons, find_app_first.
  destruct (find (nameIs name) (reverse rest)); [reflexivity|].
  simpl. rewrite lookup_insert.
  destruct (nameIs name x) eqn:Hn.
  - apply nameIs_true in Hn. rewrite decide_True by done. reflexivity.
  - apply nameIs_false in Hn. rewrite decide_False by done. reflexivity.
Qed.

Lemma byName_lookup actions name :
  byName actions !! name = lastNamed name actions.
Proof.
  unfold byName. rewrite foldl_set_lookup, lookup_empty.
  destruct (lastNamed name actions); reflexivity.
Qed.

Lemma byName_snoc actions a :
  byName (actions ++ [a]) = <[actionName a := a]> (byName actions).
Proof. unfold byName. rewrite foldl_app. reflexivity. Qed.

(** Modelled conversion: a declared name reads the value the engine
    reported for it, or the default of its declaration. *)
Lemma convertParsedData_declared (declared : list ParameterDeclaration)
    (data : ICommandLineParserData) name :
  name ∈ parameterName <$> declared ->
  exists d, d ∈ declared /\ parameterName d = name /\
            convertParsedData declared data !! name =
            Some (valueFor data d).
Proof.
  unfold convertParsedData.
  induction declared as [|d rest IH]; simpl; intros Hin.
  - by apply elem_of_nil in Hin.
  - rewrite lookup_insert.
    destruct (decide (parameterName d = name)) as [Heq|Hne].
    + exists d. repeat split; [left | done].
    + apply elem_of_cons in Hin as [Hd|Hrest]; [congruence|].
      destruct (IH Hrest) as (d' & Hd' & Hname & Hlook).
      exists d'. repeat split; [by right | done | done].
Qed.

Lemma convertParsedData_passed (declared : list ParameterDeclaration)
    (data : ICommandLineParserData) name (v : ParameterValue) :
  name ∈ parameterName <$> declared ->
  rawValues data !! name = Some v ->
  convertParsedData declared data !! name = Some v.
Proof.
  intros Hin Hraw.
  destruct (convertParsedData_declared declared data name Hin)
    as (d & _ & Hname & ->).
  unfold valueFor. rewrite Hname, Hraw. reflexivity.
Qed.

End RegistryFacts.

Section DriverFacts.

Context {G : Type} `{Engine : ArgumentParser G}.
Local Open Scope driver_scope.

Implicit Types (w : World G) (args : option (list string)).
Implicit Types (a : CommandLineAction) (err : JsError).

(** ** The two handlers *)

Lemma report_spec err w :
  report err w = (withProcess (reported err) w, reportEnds err).
Proof.
  destruct w as [p v pr], err as [code text|text| |];
    unfold report, reported, reportEnds, bind, modify, gets, ret, throw,
      withProcess; simpl.
  - destruct (truthyString text); simpl;
      match goal with |- context [exitCodeFalsy ?q] =>
        destruct (exitCodeFalsy q) end; reflexivity.
  - match goal with |- context [exitCodeFalsy ?q] =>
      destruct (exitCodeFalsy q) end; reflexivity.
  - reflexivity.
  - reflexivity.
Qed.

(** The [catch] of executeWithoutErrorHandling never throws; it resolves
    for an exit signal of code 0 only. *)
Lemma recover_zero text w :
  recover (CommandLineParserExitError 0 text) w =
  (if truthyString text then withProcess (consoleLog (Text text)) w else w,
   Return (Resolved tt)).
Proof.
  unfold recover, bind, modify, ret; simpl.
  destruct (truthyString text); reflexivity.
Qed.

Lemma recover_nonzero code text w :
  code <> 0 ->
  recover (CommandLineParserExitError code text) w =
  (w, Return (Rejected (CommandLineParserExitError code text))).
Proof.
  intros Hc. unfold recover.
  destruct (Z.eqb_spec code 0); [contradiction | reflexivity].
Qed.

Lemma recover_error text w :
  recover (Error text) w = (w, Return (Rejected (Error text))).
Proof. reflexivity. Qed.

Lemma recover_returns err w :
  exists w' r, recover err w = (w', Return r) /\
               parser w' = parser w /\ actionValues w' = actionValues w.
Proof.
  destruct err as [code text|text| |].
  - destruct (Z.eq_dec code 0) as [->|Hc].
    + rewrite recover_zero. destruct (truthyString text);
        eexists _, _; repeat split; reflexivity.
    + rewrite recover_nonzero by done. eexists _, _; repeat split.
  - rewrite recover_error. eexists _, _; repeat split.
  - eexists _, _; repeat split.
  - eexists _, _; repeat split.
Qed.

(** ** The dispatch loop *)

Lemma dispatch_spec (data : ICommandLineParserData)
    (actions : list CommandLineAction) w :
  dispatch data actions w =
  (match firstNamed (action data) actions with
   | Some a =>
       withActionValues
         (<[objectId a := convertParsedData (parameters a) data]>)
         (withParser (setSelectedAction (Some a)) w)
   | None => w
   end, Return tt).
Proof.
  induction actions as [|a rest IH]; simpl; [reflexivity|].
  unfold nameIs at 1.
  destruct (String.eqb (actionName a) (action data)); [reflexivity|].
  exact IH.
Qed.

(** ** A parser that was used already *)

Lemma tryBlock_used args w :
  _executed (parser w) = true ->
  tryBlock args w = (w, Throw alreadyExecuted).
Proof.
  intros Hx. unfold tryBlock, bind, gets, throw; simpl.
  rewrite Hx. reflexivity.
Qed.

Lemma executeWithoutErrorHandling_used args w :
  _executed (parser w) = true ->
  executeWithoutErrorHandling args w =
  (w, Return (Rejected alreadyExecuted)).
Proof.
  intros Hx. unfold executeWithoutErrorHandling, tryCatch.
  rewrite tryBlock_used by done. reflexivity.
Qed.

Lemma execute_used args w :
  _executed (parser w) = true ->
  execute args w =
  (withProcess (reported alreadyExecuted) w, Return (Resolved false)).
Proof.
  intros Hx. unfold execute, bind.
  rewrite executeWithoutErrorHandling_used by done.
  unfold promiseThen, ret, promiseCatch, settle.
  rewrite report_spec. reflexivity.
Qed.

(** ** A first call *)

Lemma tryBlock_help args w :
  _executed (parser w) = false ->
  effectiveArgs args w = [] ->
  tryBlock args w =
  (withProcess (consoleLog (Text (formatHelp (_argumentParser (parser w)))))
     (withParser (setExecuted true) w),
   Return (Resolved tt)).
Proof.
  intros Hx Hargs. unfold tryBlock, bind, gets, modify, ret; simpl.
  rewrite Hx. unfold effectiveArgs in Hargs.
  destruct args as [tokens|]; simpl; rewrite Hargs; reflexivity.
Qed.

Lemma tryBlock_parse_error args w (tokens : list string) p' err :
  _executed (parser w) = false ->
  effectiveArgs args w = tokens ->
  tokens <> [] ->
  parseArgs (_argumentParser (parser w)) tokens (process w) =
    (p', inl err) ->
  tryBlock args w =
  (withProcess (fun _ => p') (withParser (setExecuted true) w), Throw err).
Proof.
  intros Hx Hargs Hne Hparse.
  unfold tryBlock, bind, gets, modify, ret; simpl.
  rewrite Hx. unfold effectiveArgs in Hargs.
  destruct args as [given|]; simpl; rewrite Hargs;
    (destruct tokens as [|t ts]; [done|]); simpl;
    unfold parseArgsM; simpl; rewrite Hparse; reflexivity.
Qed.

Lemma tryBlock_accepted args w (tokens : list string) p' data a :
  _executed (parser w) = false ->
  effectiveArgs args w = tokens ->
  tokens <> [] ->
  parseArgs (_argumentParser (parser w)) tokens (process w) =
    (p', inr data) ->
  firstNamed (action data) (_actions (parser w)) = Some a ->
  tryBlock args w = Action_execute a (dispatched p' data a w).
Proof.
  intros Hx Hargs Hne Hparse Hfirst.
  unfold tryBlock, bind, gets, modify, ret; simpl.
  rewrite Hx. unfold effectiveArgs in Hargs.
  destruct args as [given|]; simpl; rewrite Hargs;
    (destruct tokens as [|t ts]; [done|]); simpl;
    unfold parseArgsM; simpl; rewrite Hparse; simpl;
    rewrite dispatch_spec; simpl; rewrite Hfirst; simpl;
    unfold onExecute, bind, gets; simpl; reflexivity.
Qed.

(** The body of an action changes the process only. *)
Lemma Action_execute_frame a w :
  parser (after (Action_execute a) w) = parser w /\
  actionValues (after (Action_execute a) w) = actionValues w.
Proof.
  unfold after, Action_execute.
  destruct (_execute a _ (process w)) as [p' c]. split; reflexivity.
Qed.

Lemma onExecute_frame w :
  parser (fst (onExecute w)) = parser w /\
  actionValues (fst (onExecute w)) = actionValues w.
Proof.
  unfold onExecute, bind, gets, throw; simpl.
  destruct (selectedAction (parser w)) as [a|]; [|done].
  apply Action_execute_frame.
Qed.

(** Whatever the arguments, the [try] block leaves the flag set, and the
    registry as it was. *)
Lemma tryBlock_frame args w :
  _executed (parser (after (tryBlock args) w)) = true /\
  sameRegistry w (after (tryBlock args) w).
Proof.
  unfold after, sameRegistry, tryBlock, bind, gets, modify, ret, throw;
    simpl.
  destruct (_executed (parser w)) eqn:Hx; simpl; [done|].
  destruct args as [given|]; simpl.
  all: match goal with |- context [(length ?t =? 0)%nat] =>
         destruct t as [|t0 ts] end; simpl; [done|].
  all: unfold parseArgsM; simpl;
    match goal with |- context [parseArgs ?g ?t ?p] =>
      destruct (parseArgs g t p) as [p' [err|data]] end; simpl; [done|].
  all: rewrite dispatch_spec; simpl;
    destruct (firstNamed (action data) (_actions (parser w))) as [a|];
    simpl.
  all: try (unfold onExecute, bind, gets, Action_execute; simpl;
            match goal with |- context [_execute ?a ?v ?p] =>
              destruct (_execute a v p) as [p'' c] end; done).
  all: destruct (selectedAction (parser w)) as [stale|]; simpl; [|done].
  all: rewrite (proj1 (onExecute_frame _)); done.
Qed.

(** ** The entry points, whatever the state *)

(** executeWithoutErrorHandling never throws: it returns a promise. *)
Lemma executeWithoutErrorHandling_returns args w :
  exists w1 r, executeWithoutErrorHandling args w = (w1, Return r).
Proof.
  unfold executeWithoutErrorHandling, tryCatch.
  destruct (tryBlock args w) as [w' [r|err]]; [by eexists _, _|].
  destruct (recover_returns err w') as (w1 & r & Hr & _).
  by eexists _, _.
Qed.

Lemma executeWithoutErrorHandling_frame args w :
  _executed (parser (after (executeWithoutErrorHandling args) w)) = true /\
  sameRegistry w (after (executeWithoutErrorHandling args) w).
Proof.
  pose proof (tryBlock_frame args w) as Hframe.
  unfold after, executeWithoutErrorHandling, tryCatch in *.
  destruct (tryBlock args w) as [w' [r|err]]; simpl in *; [done|].
  destruct (recover_returns err w') as (w1 & r & Hr & Hp & _).
  rewrite Hr; simpl. unfold sameRegistry in *. rewrite Hp. done.
Qed.

(** [execute] in terms of the promise it wraps. *)
Lemma execute_spec args w w1 (r : Promise unit) :
  executeWithoutErrorHandling args w = (w1, Return r) ->
  execute args w =
  match r with
  | Resolved _ => (w1, Return (Resolved true))
  | Rejected err =>
      (withProcess (reported err) w1, Return (promiseOf (reportEnds err)))
  end.
Proof.
  intros Hr. unfold execute, bind. rewrite Hr.
  destruct r as [[]|err]; simpl; [reflexivity|].
  unfold ret, settle. rewrite report_spec.
  by destruct (reportEnds err).
Qed.

Lemma execute_frame args w :
  _executed (parser (after (execute args) w)) = true /\
  sameRegistry w (after (execute args) w).
Proof.
  pose proof (executeWithoutErrorHandling_frame args w) as Hframe.
  destruct (executeWithoutErrorHandling_returns args w) as (w1 & r & Hr).
  unfold after in *. rewrite (execute_spec _ _ _ _ Hr).
  rewrite Hr in Hframe; simpl in Hframe.
  destruct r as [[]|err]; simpl; done.
Qed.

Lemma call_frame (entry : EntryPoint) args w :
  _executed (parser (after (call entry args) w)) = true /\
  sameRegistry w (after (call entry args) w).
Proof.
  destruct entry; simpl; [apply execute_frame|].
  pose proof (executeWithoutErrorHandling_frame args w) as Hframe.
  destruct (executeWithoutErrorHandling_returns args w) as (w1 & r & Hr).
  unfold after, bind in *. rewrite Hr in *. exact Hframe.
Qed.

(** On a used parser a call changes nothing but, through [execute], the
    process. *)
Lemma call_used (entry : EntryPoint) args w :
  _executed (parser w) = true ->
  refusedAsUsed (entry, snd (call entry args w)) /\
  _executed (parser (after (call entry args) w)) = true.
Proof.
  intros Hx. split; [|apply call_frame].
  destruct entry; unfold refusedAsUsed; simpl.
  - rewrite execute_used by done. reflexivity.
  - unfold bind. rewrite executeWithoutErrorHandling_used by done.
    reflexivity.
Qed.

(** After one call, every later call is refused. *)
Lemma callAll_used (calls : list (EntryPoint * option (list string))) w :
  _executed (parser w) = true ->
  Forall refusedAsUsed (callAll calls w).
Proof.
  revert w. induction calls as [|[entry args] rest IH]; intros w Hx;
    simpl; constructor.
  - apply call_used, Hx.
  - apply IH, call_used, Hx.
Qed.

Lemma reported_exit code text (p : Process) :
  stderr (reported (CommandLineParserExitError code text) p) =
    stderr p ++ (if truthyString text then [Text text] else []) /\
  exitCode (reported (CommandLineParserExitError code text) p) =
    exitCodeAfter code (exitCode p) /\
  stdout (reported (CommandLineParserExitError code text) p) = stdout p /\
  argv (reported (CommandLineParserExitError code text) p) = argv p.
Proof.
  destruct p as [av [c|] out errs]; unfold reported, exitCodeFalsy,
    exitCodeAfter; destruct (truthyString text); simpl;
    rewrite ?app_nil_r; try destruct (c =? 0); done.
Qed.

Lemma reported_error text (p : Process) :
  stderr (reported (Error text) p) =
    stderr p ++ [RedText ("Error: " +:+
                          trim (if truthyString text then text
                                else "An unknown error occurred"))] /\
  exitCode (reported (Error text) p) = exitCodeAfter 1 (exitCode p) /\
  stdout (reported (Error text) p) = stdout p /\
  argv (reported (Error text) p) = argv p.
Proof.
  destruct p as [av [c|] out errs]; unfold reported, exitCodeFalsy,
    exitCodeAfter; simpl; try destruct (c =? 0); done.
Qed.

(** ** execute *)

(** What [execute] makes of the promise of executeWithoutErrorHandling.
    Resolved: [true], nothing else changes. Rejected with an exit signal:
    the message of the signal, if not empty, on standard error, the code of
    the signal as exit code unless a nonzero code was set, [false].
    Rejected with another object: one red line made of the prefix and the
    trimmed message (or the stock message) on standard error, exit code 1
    under the same rule, [false]. Rejected with [undefined] or [null]: the
    callback of [catch] throws when it reads the message, so the promise of
    [execute] is rejected, with nothing written and no exit code set. *)
Lemma execute_outcomes args w :
  exists w1 r,
    executeWithoutErrorHandling args w = (w1, Return r) /\
    parser (after (execute args) w) = parser w1 /\
    actionValues (after (execute args) w) = actionValues w1 /\
    stdout (process (after (execute args) w)) = stdout (process w1) /\
    match r with
    | Resolved _ =>
        snd (execute args w) = Return (Resolved true) /\
        process (after (execute args) w) = process w1
    | Rejected (CommandLineParserExitError code text) =>
        snd (execute args w) = Return (Resolved false) /\
        stderr (process (after (execute args) w)) =
          stderr (process w1) ++
          (if truthyString text then [Text text] else []) /\
        exitCode (process (after (execute args) w)) =
          exitCodeAfter code (exitCode (process w1))
    | Rejected (Error text) =>
        snd (execute args w) = Return (Resolved false) /\
        stderr (process (after (execute args) w)) =
          stderr (process w1) ++
          [RedText ("Error: " +:+
                    trim (if truthyString text then text
                          else "An unknown error occurred"))] /\
        exitCode (process (after (execute args) w)) =
          exitCodeAfter 1 (exitCode (process w1))
    | Rejected Undefined =>
        snd (execute args w) =
          Return (Rejected
                    (Error "Cannot read property 'message' of undefined")) /\
        process (after (execute args) w) = process w1
    | Rejected Null =>
        snd (execute args w) =
          Return (Rejected
                    (Error "Cannot read property 'message' of null")) /\
        process (after (execute args) w) = process w1
    end.
Proof.
  destruct (executeWithoutErrorHandling_returns args w) as (w1 & r & Hr).
  unfold after. rewrite (execute_spec _ _ _ _ Hr).
  exists w1, r. split; [exact Hr|].
  destruct r as [[]|[code text|text| |]]; simpl; try done.
  - destruct (reported_exit code text (process w1)) as (? & ? & ? & ?).
    done.
  - destruct (reported_error text (process w1)) as (? & ? & ? & ?).
    done.
Qed.

(** C2, as amended. After a first call through either entry point, with
    any arguments, a second call finds the parser used. Through
    executeWithoutErrorHandling the usage error comes back unchanged, as
    the rejection of the returned promise, and the world is untouched.
    Through [execute] it is reported like every other error: the red
    error line goes to standard error, the exit code becomes 1 unless a
    nonzero code was set, and the promise resolves to [false]. *)
Theorem second_call_is_refused (first : EntryPoint) args1 args2 w :
  let w1 := after (call first args1) w in
  executeWithoutErrorHandling args2 w1 =
    (w1, Return (Rejected alreadyExecuted)) /\
  snd (execute args2 w1) = Return (Resolved false) /\
  parser (after (execute args2) w1) = parser w1 /\
  actionValues (after (execute args2) w1) = actionValues w1 /\
  stdout (process (after (execute args2) w1)) = stdout (process w1) /\
  stderr (process (after (execute args2) w1)) =
    stderr (process w1) ++
    [RedText "Error: execute() was already called for this parser instance"]
  /\
  exitCode (process (after (execute args2) w1)) =
    exitCodeAfter 1 (exitCode (process w1)).
Proof.
  intros w1.
  assert (_executed (parser w1) = true) as Hx by apply call_frame.
  split; [by apply executeWithoutErrorHandling_used|].
  unfold after at 1 2 3 4 5. rewrite execute_used by done. simpl.
  destruct (reported_error
              "execute() was already called for this parser instance"
              (process w1)) as (Herr & Hcode & Hout & _).
  repeat split; try done.
Qed.

(** C5. On a parser that has not been executed, [execute] with an empty
    argument vector (given, or taken from the process) resolves to
    [true]; the help of the grammar is printed on standard output; no
    action runs: the selected action stays what it was (unset on a new
    parser), the values of the actions, standard error and the exit code
    are untouched. *)
Theorem execute_empty_prints_help args w :
  _executed (parser w) = false ->
  effectiveArgs args w = [] ->
  snd (execute args w) = Return (Resolved true) /\
  stdout (process (after (execute args) w)) =
    stdout (process w) ++
    [Text (formatHelp (_argumentParser (parser w)))] /\
  selectedAction (parser (after (execute args) w)) =
    selectedAction (parser w) /\
  actionValues (after (execute args) w) = actionValues w /\
  stderr (process (after (execute args) w)) = stderr (process w) /\
  exitCode (process (after (execute args) w)) = exitCode (process w).
Proof.
  intros Hx Hargs.
  assert (executeWithoutErrorHandling args w =
          (withProcess
             (consoleLog (Text (formatHelp (_argumentParser (parser w)))))
             (withParser (setExecuted true) w),
           Return (Resolved tt))) as Hr.
  { unfold executeWithoutErrorHandling, tryCatch.
    rewrite tryBlock_help by done. reflexivity. }
  unfold after. rewrite (execute_spec _ _ _ _ Hr). simpl. done.
Qed.

(** ** What a call leaves of the parser and of the actions *)

Lemma call_state (entry : EntryPoint) args w :
  parser (after (call entry args) w) = parser (after (tryBlock args) w) /\
  actionValues (after (call entry args) w) =
    actionValues (after (tryBlock args) w) /\
  (forall u, snd (tryBlock args w) = Return (Resolved u) ->
             snd (call entry args w) = Return (Resolved true) /\
             process (after (call entry args) w) =
               process (after (tryBlock args) w)).
Proof.
  assert (exists w1 r,
            executeWithoutErrorHandling args w = (w1, Return r) /\
            parser w1 = parser (after (tryBlock args) w) /\
            actionValues w1 = actionValues (after (tryBlock args) w) /\
            (forall r0, snd (tryBlock args w) = Return r0 ->
                        r = r0 /\
                        w1 = after (tryBlock args) w))
    as (w1 & r & Hr & Hp & Hv & Hsame).
  { unfold executeWithoutErrorHandling, tryCatch, after.
    destruct (tryBlock args w) as [w' [r|err]]; simpl.
    - exists w', r. repeat split; congruence.
    - destruct (recover_returns err w') as (w1 & r & Hr & Hp & Hv).
      exists w1, r. repeat split; done. }
  destruct entry; unfold after, call.
  - rewrite (execute_spec _ _ _ _ Hr).
    destruct r as [[]|err]; simpl; (split; [done|split; [done|]]);
      intros u Hu; destruct (Hsame _ Hu) as [? ->]; done.
  - unfold bind. rewrite Hr. simpl. (split; [done|split; [done|]]).
    intros u Hu. destruct (Hsame _ Hu) as [-> ->]. done.
Qed.

(** ** The registry *)

Lemma newWorld_invariant options globals (p : Process) :
  registryInvariant (newWorld options globals p).
Proof. reflexivity. Qed.

Lemma addAction_spec a w :
  addAction a w =
  match snd (_buildParser a (_argumentParser (parser w))) with
  | None =>
      (withParser
         (fun p =>
            setActionByName a
              (pushAction a
                 (setArgumentParser
                    (fst (_buildParser a (_argumentParser (parser w)))) p)))
         w, Return tt)
  | Some err =>
      (withParser
         (setArgumentParser
            (fst (_buildParser a (_argumentParser (parser w))))) w,
       Throw err)
  end.
Proof.
  unfold addAction, bind, gets, modify, throw, ret; simpl.
  destruct (snd (_buildParser a (_argumentParser (parser w))));
    reflexivity.
Qed.

Lemma addAction_invariant a w :
  registryInvariant w -> registryInvariant (after (addAction a) w).
Proof.
  unfold registryInvariant, after. rewrite addAction_spec.
  destruct (snd (_buildParser a (_argumentParser (parser w)))); simpl;
    [done|].
  intros ->. by rewrite byName_snoc.
Qed.

Lemma call_invariant (entry : EntryPoint) args w :
  registryInvariant w -> registryInvariant (after (call entry args) w).
Proof.
  unfold registryInvariant.
  destruct (call_frame entry args w) as (_ & -> & -> & _). done.
Qed.

(** Every parser a program can build keeps the by-name map in step with
    the ordered registry. *)
Lemma reachable_invariant w : Reachable w -> registryInvariant w.
Proof.
  induction 1 as [options globals p|a w _ IH|entry args w _ IH|f w _ IH].
  - apply newWorld_invariant.
  - by apply addAction_invariant.
  - by apply call_invariant.
  - exact IH.
Qed.

(** C6, as amended. [addAction] has no check of the name. Whenever the
    [_buildParser] step of the action returns, the call returns, the action
    is appended to the ordered registry and becomes the by-name entry of
    its name, whether an action of that name is registered or not. *)
Theorem addAction_always_registers a w :
  snd (_buildParser a (_argumentParser (parser w))) = None ->
  snd (addAction a w) = Return tt /\
  _actions (parser (after (addAction a) w)) = _actions (parser w) ++ [a] /\
  _actionsByName (parser (after (addAction a) w)) =
    <[actionName a := a]> (_actionsByName (parser w)) /\
  tryGetAction (actionName a) (after (addAction a) w) =
    (after (addAction a) w, Return (Some a)) /\
  _argumentParser (parser (after (addAction a) w)) =
    fst (_buildParser a (_argumentParser (parser w))).
Proof.
  intros Hbuilt. unfold after. rewrite addAction_spec, Hbuilt.
  simpl. repeat split.
  unfold tryGetAction, gets; simpl. by rewrite lookup_insert_eq.
Qed.

(** C7. On a parser whose by-name map is the one the registrations built
    and whose registered actions have names that are all different,
    [getAction] and [tryGetAction] of the name of a registered action
    return that action; for a name that no registered action has,
    [getAction] throws and [tryGetAction] returns [undefined]. Neither
    changes the world. *)
Theorem getAction_finds_registered w :
  registryInvariant w ->
  NoDup (actionName <$> _actions (parser w)) ->
  (forall a, a ∈ _actions (parser w) ->
     getAction (actionName a) w = (w, Return a) /\
     tryGetAction (actionName a) w = (w, Return (Some a))) /\
  (forall name, name ∉ actionName <$> _actions (parser w) ->
     getAction name w = (w, Throw (notDefined name)) /\
     tryGetAction name w = (w, Return None)).
Proof.
  intros Hinv Hnodup. unfold getAction, bind, tryGetAction, gets, ret, throw.
  rewrite Hinv. split.
  - intros a Ha. rewrite byName_lookup, lastNamed_unique by done. done.
  - intros name Hname. rewrite byName_lookup. unfold lastNamed.
    fold (firstNamed name (reverse (_actions (parser w)))).
    rewrite firstNamed_absent; [done|].
    by rewrite fmap_reverse, elem_of_reverse.
Qed.

(** ** Dispatch *)

(** The parser and the actions after an accepted call: as dispatch left
    them, whatever the body did. *)
Lemma call_accepted (entry : EntryPoint) args w (tokens : list string)
    p' data a :
  _executed (parser w) = false ->
  effectiveArgs args w = tokens ->
  tokens <> [] ->
  parseArgs (_argumentParser (parser w)) tokens (process w) =
    (p', inr data) ->
  firstNamed (action data) (_actions (parser w)) = Some a ->
  parser (after (call entry args) w) = parser (dispatched p' data a w) /\
  actionValues (after (call entry args) w) =
    actionValues (dispatched p' data a w).
Proof.
  intros Hx Hargs Hne Hparse Hfirst.
  destruct (call_state entry args w) as (Hp & Hv & _).
  destruct (Action_execute_frame a (dispatched p' data a w)) as [Hp' Hv'].
  unfold after in Hp, Hv, Hp', Hv'.
  rewrite (tryBlock_accepted _ _ _ _ _ _ Hx Hargs Hne Hparse Hfirst)
    in Hp, Hv.
  rewrite Hp' in Hp. rewrite Hv' in Hv. done.
Qed.

(** C4. On a parser that has not been executed, when the grammar accepts
    a non-empty argument vector and the action name it reports is the name
    of a registered action, then after the call, through either entry
    point and however the body of the action ends, [selectedAction] is the
    registered action with that name (the first one in the registry), and
    the handles of that action can be read: every declared parameter reads
    the value of its declaration, which is the value the grammar reported
    for the name when it reported one (so a declared flag reported as
    [true] reads [true]). *)
Theorem selected_action_matches (entry : EntryPoint) args w
    (tokens : list string) p' data a :
  _executed (parser w) = false ->
  effectiveArgs args w = tokens ->
  tokens <> [] ->
  parseArgs (_argumentParser (parser w)) tokens (process w) =
    (p', inr data) ->
  firstNamed (action data) (_actions (parser w)) = Some a ->
  let w' := after (call entry args) w in
  selectedAction (parser w') = Some a /\
  a ∈ _actions (parser w') /\
  actionName a = action data /\
  (forall name, name ∈ parameterName <$> parameters a ->
     exists d, d ∈ parameters a /\ parameterName d = name /\
               readHandle (actionValues w' !! objectId a) name =
               Return (valueFor data d)) /\
  (forall name v, name ∈ parameterName <$> parameters a ->
     rawValues data !! name = Some v ->
     readHandle (actionValues w' !! objectId a) name = Return v).
Proof.
  intros Hx Hargs Hne Hparse Hfirst w'.
  destruct (call_accepted entry _ _ _ _ _ _ Hx Hargs Hne Hparse Hfirst)
    as [Hp Hv].
  destruct (call_frame entry args w) as (_ & Hactions & _).
  fold w' in Hp, Hv, Hactions.
  destruct (firstNamed_found _ _ _ Hfirst) as [Hin Hname].
  assert (actionValues w' !! objectId a =
          Some (convertParsedData (parameters a) data)) as Hvalues.
  { rewrite Hv. simpl. by rewrite lookup_insert_eq. }
  rewrite Hvalues, Hactions, Hp. simpl. repeat split; try done.
  - intros name Hdecl.
    destruct (convertParsedData_declared _ data _ Hdecl)
      as (d & Hd & Hdn & ->).
    by exists d.
  - intros name v Hdecl Hraw.
    by rewrite (convertParsedData_passed _ _ _ _ Hdecl Hraw).
Qed.

(** C10. Let two actions with one name be registered, the first of that
    name before the last of that name, on a parser whose by-name map is
    the one the registrations built. When the grammar accepts an argument
    vector and reports that name, the call selects the one registered
    first; [getAction] and [tryGetAction] return the one registered last,
    before the call and after it. For two different objects the selected
    action is not the one looked up. *)
Theorem duplicate_name_dispatch_and_lookup (entry : EntryPoint) args w
    (tokens : list string) p' data
    (before between behind : list CommandLineAction) a1 a2 :
  registryInvariant w ->
  _actions (parser w) = before ++ a1 :: between ++ a2 :: behind ->
  actionName a1 = action data ->
  actionName a2 = action data ->
  action data ∉ actionName <$> before ->
  action data ∉ actionName <$> behind ->
  _executed (parser w) = false ->
  effectiveArgs args w = tokens ->
  tokens <> [] ->
  parseArgs (_argumentParser (parser w)) tokens (process w) =
    (p', inr data) ->
  let w' := after (call entry args) w in
  selectedAction (parser w') = Some a1 /\
  tryGetAction (action data) w = (w, Return (Some a2)) /\
  getAction (action data) w = (w, Return a2) /\
  tryGetAction (action data) w' = (w', Return (Some a2)) /\
  getAction (action data) w' = (w', Return a2) /\
  (objectId a1 <> objectId a2 -> selectedAction (parser w') <> Some a2).
Proof.
  intros Hinv Hactions Ha1 Ha2 Hbefore Hbehind Hx Hargs Hne Hparse w'.
  assert (firstNamed (action data) (_actions (parser w)) = Some a1)
    as Hfirst.
  { rewrite Hactions. by apply firstNamed_behind. }
  assert (lastNamed (action data) (_actions (parser w)) = Some a2)
    as Hlast.
  { rewrite Hactions.
    replace (before ++ a1 :: between ++ a2 :: behind)
      with ((before ++ a1 :: between) ++ a2 :: behind)
      by (by rewrite <- app_assoc).
    by apply lastNamed_before. }
  destruct (call_accepted entry _ _ _ _ _ _ Hx Hargs Hne Hparse Hfirst)
    as [Hp _].
  pose proof (call_invariant entry args w Hinv) as Hinv'.
  destruct (call_frame entry args w) as (_ & Hsame & _).
  fold w' in Hp, Hinv', Hsame.
  assert (selectedAction (parser w') = Some a1) as Hselected
    by (rewrite Hp; reflexivity).
  unfold getAction, bind, tryGetAction, gets, ret.
  rewrite Hinv, Hinv', Hsame, !byName_lookup, Hlast, Hselected.
  repeat split. intros Hid Heq. congruence.
Qed.

(** C9. The flag is set before the arguments are looked at: after a first
    call through either entry point the flag is set, whatever the
    arguments, and every later call, through either entry point, is
    refused as a second use. That holds when the first call took the help
    path (it resolved, and selected and ran no action) and when the
    grammar refused the arguments (again no action was selected or
    run). *)
Theorem first_call_consumes_parser (first : EntryPoint) args w
    (later : list (EntryPoint * option (list string))) :
  _executed (parser w) = false ->
  let w1 := after (call first args) w in
  _executed (parser w1) = true /\
  Forall refusedAsUsed (callAll later w1) /\
  (effectiveArgs args w = [] ->
     snd (call first args w) = Return (Resolved true) /\
     selectedAction (parser w1) = selectedAction (parser w) /\
     actionValues w1 = actionValues w /\
     process w1 =
       consoleLog (Text (formatHelp (_argumentParser (parser w))))
                  (process w)) /\
  (forall p' err,
     effectiveArgs args w <> [] ->
     parseArgs (_argumentParser (parser w)) (effectiveArgs args w)
               (process w) = (p', inl err) ->
     selectedAction (parser w1) = selectedAction (parser w) /\
     actionValues w1 = actionValues w).
Proof.
  intros Hx w1.
  assert (_executed (parser w1) = true) as Hx1 by apply call_frame.
  destruct (call_state first args w) as (Hp & Hv & Hres).
  fold w1 in Hp, Hv. unfold after in Hp, Hv, Hres.
  split; [done|]. split; [by apply callAll_used|]. split.
  - intros Hempty. rewrite (tryBlock_help _ _ Hx Hempty) in Hp, Hv, Hres.
    rewrite Hp, Hv. destruct (Hres tt eq_refl) as [Hresult Hprocess].
    done.
  - intros p' err Hne Hparse.
    rewrite (tryBlock_parse_error _ _ _ _ _ Hx eq_refl Hne Hparse)
      in Hp, Hv.
    rewrite Hp, Hv. done.
Qed.

(** ** Faults seen by executeWithoutErrorHandling *)

(** A fault thrown inside the [try] goes through [recover]: an exit
    signal of code 0 becomes a resolved promise, with its message on
    standard output; anything else becomes a rejection. *)
Lemma thrown_fault_is_recovered args w w' err :
  tryBlock args w = (w', Throw err) ->
  executeWithoutErrorHandling args w = recover err w'.
Proof.
  intros Ht. unfold executeWithoutErrorHandling, tryCatch. by rewrite Ht.
Qed.

(** A promise returned by the [try], that of the body of the action, is
    handed on as it is: [recover] does not see its rejection. *)
Lemma returned_promise_is_handed_on args w w' (r : Promise unit) :
  tryBlock args w = (w', Return r) ->
  executeWithoutErrorHandling args w = (w', Return r).
Proof.
  intros Ht. unfold executeWithoutErrorHandling, tryCatch. by rewrite Ht.
Qed.

Lemma rejection_of_body_is_handed_on args w (tokens : list string)
    p' data a p'' err :
  _executed (parser w) = false ->
  effectiveArgs args w = tokens ->
  tokens <> [] ->
  parseArgs (_argumentParser (parser w)) tokens (process w) =
    (p', inr data) ->
  firstNamed (action data) (_actions (parser w)) = Some a ->
  _execute a (convertParsedData (parameters a) data) p' =
    (p'', Return (Rejected err)) ->
  executeWithoutErrorHandling args w =
  (withProcess (fun _ => p'') (dispatched p' data a w),
   Return (Rejected err)).
Proof.
  intros Hx Hargs Hne Hparse Hfirst Hbody.
  apply returned_promise_is_handed_on.
  rewrite (tryBlock_accepted _ _ _ _ _ _ Hx Hargs Hne Hparse Hfirst).
  unfold Action_execute; simpl. rewrite lookup_insert_eq; simpl.
  rewrite Hbody. reflexivity.
Qed.

End DriverFacts.

(* ================================================================== *)
(** * The example tool: instances of the properties *)
(* ================================================================== *)

(** C1. [execute] does reject. The action [abort] of the example tool
    rejects its promise with [undefined]; the callback of [catch] in
    [execute] throws when it reads the message of that value, so the
    promise that [execute] returns is rejected with the TypeError, nothing
    is written to standard error and no exit code is set. And a rejection
    with a zero-code exit signal (the action [quit]) is neither a success
    nor reported as the other faults are: its message goes to standard
    error without the error prefix, the exit code becomes 0, and the
    result is [false]. *)
Theorem execute_rejects_on_undefined :
  snd (execute (Some ["abort"]) toolWithAbort) =
    Return (Rejected (Error "Cannot read property 'message' of undefined")) /\
  stderr (process (after (execute (Some ["abort"])) toolWithAbort)) = [] /\
  exitCode (process (after (execute (Some ["abort"])) toolWithAbort)) = None /\
  snd (execute (Some ["quit"]) tool) = Return (Resolved false) /\
  stderr (process (after (execute (Some ["quit"])) tool)) = [Text "bye"] /\
  exitCode (process (after (execute (Some ["quit"])) tool)) = Some 0.
Proof. vm_compute. repeat split. Qed.

(** C3. A zero-code exit signal that arrives as the rejection of the
    promise of the action body (the action [quit] of the example tool) is
    not treated as a successful early exit: executeWithoutErrorHandling
    returns the rejected promise, nothing is written to standard output,
    and [execute] then reports a failure, with the message on standard
    error and the result [false]. The same signal thrown by the grammar
    ([-h]) is recovered. *)
Theorem rejected_zero_exit_is_not_recovered :
  snd (executeWithoutErrorHandling (Some ["quit"]) tool) =
    Return (Rejected (CommandLineParserExitError 0 "bye")) /\
  stdout (process (after (executeWithoutErrorHandling (Some ["quit"])) tool))
    = [] /\
  snd (execute (Some ["quit"]) tool) = Return (Resolved false) /\
  stderr (process (after (execute (Some ["quit"])) tool)) = [Text "bye"] /\
  snd (executeWithoutErrorHandling (Some ["-h"]) tool) =
    Return (Resolved tt).
Proof. vm_compute. repeat split. Qed.

Lemma selected_action_matches_witness :
  let w' := after (call ViaExecute (Some ["build"; "--verbose"])) tool in
  selectedAction (parser w') = Some buildAction /\
  readHandle (actionValues w' !! objectId buildAction) "verbose" =
    Return (VBoolean true).
Proof.
  destruct (selected_action_matches ViaExecute
              (Some ["build"; "--verbose"]) tool ["build"; "--verbose"]
              emptyProcess
              {| action := "build"; rawValues := flagsOf ["--verbose"] |}
              buildAction)
    as (Hselected & _ & _ & _ & Hread);
    [reflexivity | reflexivity | discriminate | reflexivity | reflexivity |].
  split; [exact Hselected|].
  apply Hread; [left | reflexivity].
Defined.

Lemma execute_empty_prints_help_witness :
  snd (execute (Some []) tool) = Return (Resolved true) /\
  stdout (process (after (execute (Some [])) tool)) =
    [Text "usage: tool [-h] <command> ..."] /\
  selectedAction (parser (after (execute (Some [])) tool)) = None.
Proof.
  destruct (execute_empty_prints_help (Some []) tool)
    as (Hresult & Hout & Hselected & _); [reflexivity | reflexivity |].
  split; [exact Hresult|]. split; [exact Hout | exact Hselected].
Defined.

Lemma tool_invariant : registryInvariant tool.
Proof.
  unfold tool. do 3 apply addAction_invariant. apply newWorld_invariant.
Qed.

Lemma toolWithDuplicate_invariant : registryInvariant toolWithDuplicate.
Proof.
  unfold toolWithDuplicate. do 2 apply addAction_invariant.
  apply newWorld_invariant.
Qed.

Lemma getAction_finds_registered_witness :
  getAction "quit" tool = (tool, Return quitAction) /\
  getAction "deploy" tool = (tool, Throw (notDefined "deploy")) /\
  tryGetAction "deploy" tool = (tool, Return None).
Proof.
  destruct (getAction_finds_registered tool) as [Hfound Habsent].
  - reflexivity.
  - apply (bool_decide_unpack _). vm_compute. exact I.
  - split.
    + apply (Hfound quitAction). right; left.
    + apply (Habsent "deploy").
      apply (bool_decide_unpack _). vm_compute. exact I.
Defined.

Lemma first_call_consumes_parser_witness :
  selectedAction (parser (after (call ViaExecute (Some [])) tool)) = None /\
  Forall refusedAsUsed
    (callAll [(ViaExecuteWithoutErrorHandling, Some ["build"]);
              (ViaExecute, Some ["build"])]
       (after (call ViaExecute (Some [])) tool)).
Proof.
  destruct (first_call_consumes_parser ViaExecute (Some []) tool
              [(ViaExecuteWithoutErrorHandling, Some ["build"]);
               (ViaExecute, Some ["build"])])
    as (_ & Hlater & Hhelp & _); [reflexivity|].
  split; [|exact Hlater].
  destruct Hhelp as (_ & Hselected & _); [reflexivity|].
  exact Hselected.
Defined.

Lemma duplicate_name_dispatch_and_lookup_witness :
  let w' := after (call ViaExecute (Some ["build"])) toolWithDuplicate in
  selectedAction (parser w') = Some buildAction /\
  getAction "build" w' = (w', Return otherBuildAction) /\
  selectedAction (parser w') <> Some otherBuildAction.
Proof.
  destruct (duplicate_name_dispatch_and_lookup ViaExecute (Some ["build"])
              toolWithDuplicate ["build"] emptyProcess
              {| action := "build"; rawValues := ∅ |}
              [] [] [] buildAction otherBuildAction)
    as (Hselected & _ & _ & _ & Hget & Hdiffer);
    [ exact toolWithDuplicate_invariant | reflexivity | reflexivity
    | reflexivity | apply not_elem_of_nil | apply not_elem_of_nil
    | reflexivity | reflexivity | discriminate | reflexivity |].
  split; [exact Hselected|]. split; [exact Hget|].
  apply Hdiffer. discriminate.
Defined.

Lemma addAction_always_registers_witness :
  snd (addAction otherBuildAction (after (addAction buildAction) freshTool))
    = Return tt /\
  _actions (parser toolWithDuplicate) = [buildAction; otherBuildAction] /\
  tryGetAction "build" toolWithDuplicate =
    (toolWithDuplicate, Return (Some otherBuildAction)).
Proof.
  destruct (addAction_always_registers otherBuildAction
              (after (addAction buildAction) freshTool))
    as (Hreturned & Hactions & _ & Hfound & _); [reflexivity|].
  split; [exact Hreturned|]. split; [exact Hactions | exact Hfound].
Defined.

(** [trim] strips the no-break space and the byte order mark like the
    white space of ASCII, and leaves the inside of the message alone. *)
Lemma trim_strips_unicode_white_space :
  trim (String (ascii_of_nat 194) (String (ascii_of_nat 160) " boom, twice ")
        +:+ String (ascii_of_nat 239)
              (String (ascii_of_nat 187)
                 (String (ascii_of_nat 191)
                    (String (ascii_of_nat 10) EmptyString)))) =
  "boom, twice".
Proof. reflexivity. Qed.

(** C2, as stated, fails: a second call through [execute] hands no fault to
    its caller. The promise resolves to [false] and the exit code is 1. *)
Lemma second_execute_hands_on_no_fault :
  ~ secondCallPropagates ViaExecute ViaExecute (Some []) (Some ["build"]) tool
  /\ snd (execute (Some ["build"]) (after (execute (Some [])) tool)) =
     Return (Resolved false)
  /\ exitCode (process (after (execute (Some ["build"]))
                          (after (execute (Some [])) tool))) = Some 1.
Proof.
  split; [|split; reflexivity].
  unfold secondCallPropagates. vm_compute. discriminate.
Qed.

(** C6, as stated, fails: registering a second action with the name of a
    registered one is not refused. The call returns and the registry holds
    both. *)
Lemma duplicate_name_is_registered :
  actionName otherBuildAction = actionName buildAction /\
  ~ refusesRegistration otherBuildAction
      (after (addAction buildAction) freshTool) /\
  snd (addAction otherBuildAction (after (addAction buildAction) freshTool))
    = Return tt /\
  objectId <$> _actions (parser toolWithDuplicate) = [1%nat; 2%nat].
Proof.
  split; [reflexivity|]. split; [|split; reflexivity].
  intros [err Hrefused]. apply (f_equal snd) in Hrefused.
  discriminate Hrefused.
Qed.

(* ================================================================== *)
(** * Properties of Utilities.executeCommand *)
(* ================================================================== *)

Section ExecuteCommandFacts.

Import Utilities.

Variable spawnSync :
  string -> list string -> SpawnSyncOptions -> SpawnSyncReturns.

Implicit Types (command wd : string) (args : list string) (quiet : bool).

(** The bare command is always the first one spawned. *)
Lemma executeCommand_spawns_bare_first command args wd quiet :
  exists rest,
    spawnedCommands (fst (executeCommand spawnSync command args wd quiet []))
    = command :: rest.
Proof.
  unfold executeCommand, Utilities.bind, spawn, readErrno.
  fold (optionsFor wd quiet). simpl.
  destruct (error (spawnSync command args (optionsFor wd quiet)))
    as [e|] eqn:He; simpl.
  - destruct (String.eqb (errno e) "ENOENT"); simpl.
    + destruct (error (spawnSync (command +:+ ".cmd") args
                         (optionsFor wd quiet)));
        simpl; eexists; reflexivity.
    + rewrite He; simpl. eexists; reflexivity.
  - eexists; reflexivity.
Qed.

(** A first spawn that fails with ENOENT is followed by one spawn of the
    command with the extension, whose result decides. *)
Lemma executeCommand_enoent_retries command args wd quiet e :
  error (spawnSync command args (optionsFor wd quiet)) = Some e ->
  errno e = "ENOENT" ->
  spawnedCommands (fst (executeCommand spawnSync command args wd quiet []))
    = [command; command +:+ ".cmd"] /\
  snd (executeCommand spawnSync command args wd quiet []) =
    match error (spawnSync (command +:+ ".cmd") args (optionsFor wd quiet))
    with
    | Some e' => Throw (SpawnError e')
    | None => Return tt
    end.
Proof.
  intros He Hno.
  unfold executeCommand, Utilities.bind, spawn, readErrno.
  fold (optionsFor wd quiet). simpl. rewrite He; simpl. rewrite Hno; simpl.
  destruct (error (spawnSync (command +:+ ".cmd") args
                     (optionsFor wd quiet)));
    simpl; split; reflexivity.
Qed.

(** A first spawn that fails with another error is not retried: its error
    is thrown. *)
Lemma executeCommand_other_error_throws command args wd quiet e :
  error (spawnSync command args (optionsFor wd quiet)) = Some e ->
  errno e <> "ENOENT" ->
  spawnedCommands (fst (executeCommand spawnSync command args wd quiet []))
    = [command] /\
  snd (executeCommand spawnSync command args wd quiet []) =
    Throw (SpawnError e).
Proof.
  intros He Hno.
  unfold executeCommand, Utilities.bind, spawn, readErrno.
  fold (optionsFor wd quiet). simpl. rewrite He; simpl.
  destruct (String.eqb_spec (errno e) "ENOENT") as [Heq|_]; [done|].
  simpl. rewrite He. split; reflexivity.
Qed.

(** A first spawn whose result carries no error never lets the call
    return: the read of [errno] throws, after that one spawn. *)
Lemma executeCommand_without_error_throws command args wd quiet :
  error (spawnSync command args (optionsFor wd quiet)) = None ->
  spawnedCommands (fst (executeCommand spawnSync command args wd quiet []))
    = [command] /\
  snd (executeCommand spawnSync command args wd quiet []) =
    Throw (TypeError "Cannot read property 'errno' of undefined").
Proof.
  intros He.
  unfold executeCommand, Utilities.bind, spawn, readErrno.
  fold (optionsFor wd quiet). simpl. rewrite He; simpl.
  split; reflexivity.
Qed.

End ExecuteCommandFacts.

(** C8. Where the spawn of the bare command succeeds (its result carries no
    error), executeCommand does not return: after that one spawn the read
    of [errno] on the absent error throws a TypeError. *)
Theorem executeCommand_throws_on_success :
  Utilities.spawnedCommands
    (fst (Utilities.executeCommand Utilities.spawnAlwaysSucceeds
            "git" ["status"] "." false [])) = ["git"] /\
  snd (Utilities.executeCommand Utilities.spawnAlwaysSucceeds
         "git" ["status"] "." false []) =
    Utilities.Throw
      (Utilities.TypeError "Cannot read property 'errno' of undefined").
Proof. split; reflexivity. Qed.

(* ================================================================== *)
(** * Properties of the other helpers of Utilities *)
(* ================================================================== *)

Section ScopedNameFacts.

Import Utilities.

Implicit Types (s front back : string) (c : ascii) (n : nat).

Lemma substring_whole s : String.substring 0 (String.length s) s = s.
Proof. induction s as [|c s IH]; simpl; [reflexivity | by rewrite IH]. Qed.

Lemma substring_prefix front back :
  String.substring 0 (String.length front) (front +:+ back) = front.
Proof.
  induction front as [|c front IH]; simpl.
  - by destruct back.
  - by rewrite IH.
Qed.

Lemma substring_suffix front back n :
  String.substring (String.length front) n (front +:+ back) =
  String.substring 0 n back.
Proof. induction front as [|c front IH]; simpl; [reflexivity | exact IH]. Qed.

Lemma length_append front back :
  String.length (front +:+ back) =
  (String.length front + String.length back)%nat.
Proof. induction front as [|c front IH]; simpl; [reflexivity | by rewrite IH]. Qed.

Lemma substrFrom_behind front back c :
  substrFrom (String.length front + 1) (front +:+ String c back) = back.
Proof.
  unfold substrFrom. induction front as [|c' front IH].
  - change (EmptyString +:+ String c back) with (String c back). cbn.
    by rewrite Nat.sub_0_r, substring_whole.
  - change (String c' front +:+ String c back)
      with (String c' (front +:+ String c back)).
    exact IH.
Qed.

(** Where [indexOf] finds the character, the string splits there, and the
    part in front does not hold the character. *)
Lemma indexOf_found c s n :
  indexOf c s = Some n ->
  s = substr 0 n s +:+ String c (substrFrom (n + 1) s) /\
  indexOf c (substr 0 n s) = None /\
  String.length (substr 0 n s) = n.
Proof.
  unfold substr, substrFrom. revert n.
  induction s as [|c' s IH]; intros n; simpl; [discriminate|].
  destruct (Ascii.eqb c' c) eqn:Hc.
  - intros [= <-]. apply Ascii.eqb_eq in Hc as ->. simpl.
    rewrite Nat.sub_0_r, substring_whole. done.
  - destruct (indexOf c s) as [m|] eqn:Hm; simpl; [|discriminate].
    intros [= <-]. destruct (IH m eq_refl) as (Hsplit & Hnone & Hlen).
    simpl. rewrite Hc, Hnone, Hlen. simpl. split; [|done].
    exact (f_equal (String c') Hsplit).
Qed.

(** The character is found right behind a front part that does not hold
    it. *)
Lemma indexOf_behind c front back :
  indexOf c front = None ->
  indexOf c (front +:+ String c back) = Some (String.length front).
Proof.
  induction front as [|c' front IH]; simpl.
  - intros _. by rewrite (proj2 (Ascii.eqb_eq c c) eq_refl).
  - destruct (Ascii.eqb c' c); [discriminate|].
    destruct (indexOf c front); [discriminate|].
    intros _. by rewrite IH.
Qed.

Lemma indexOf_absent_append c front back :
  indexOf c front = None -> indexOf c back = None ->
  indexOf c (front +:+ back) = None.
Proof.
  induction front as [|c' front IH]; simpl; [done|].
  destruct (Ascii.eqb c' c); [discriminate|].
  destruct (indexOf c front); [discriminate|].
  intros _ Hback. by rewrite IH.
Qed.

(** The test [scopedName.substr(0, 1) !== '@']. *)
Lemma starts_with_at s :
  String.eqb (substr 0 1 s) "@" = true <-> exists rest, s = String "@" rest.
Proof.
  unfold substr. rewrite String.eqb_eq. destruct s as [|c rest]; simpl.
  - split; [discriminate | by intros [? ?]].
  - assert (String.substring 0 0 rest = EmptyString) as ->
      by (by destruct rest).
    split.
    + intros [= ->]. by exists rest.
    + by intros [? [= -> _]].
Qed.

(** parseScopedPackgeName, case by case. *)
Lemma parseScopedPackgeName_unscoped s :
  (forall rest, s <> String "@" rest) ->
  parseScopedPackgeName s =
  Returned {| scope := EmptyString; name := s |}.
Proof.
  intros Hno. unfold parseScopedPackgeName.
  destruct (String.eqb (substr 0 1 s) "@") eqn:Hat; [|reflexivity].
  apply starts_with_at in Hat as [rest ->]. by destruct (Hno rest).
Qed.

Lemma parseScopedPackgeName_scoped rest :
  parseScopedPackgeName (String "@" rest) =
  match indexOf "/" (String "@" rest) with
  | Some slashIndex =>
      Returned {| scope := substr 0 slashIndex (String "@" rest);
                  name := substrFrom (slashIndex + 1) (String "@" rest) |}
  | None => Raised ("Invalid scoped name: " +:+ String "@" rest)
  end.
Proof.
  unfold parseScopedPackgeName.
  assert (String.eqb (substr 0 1 (String "@" rest)) "@" = true) as ->
    by (apply starts_with_at; by exists rest).
  reflexivity.
Qed.

(** X1. Joining the parts that parseScopedPackgeName returns gives the name it
    was given: the scope, when there is one, then a slash, then the
    name. *)
Theorem parseScopedPackgeName_joins_back s (parts : ScopedPackageName) :
  parseScopedPackgeName s = Returned parts ->
  scopedNameOf parts = s.
Proof.
  destruct (String.eqb (substr 0 1 s) "@") eqn:Hat.
  - apply starts_with_at in Hat as [rest ->].
    rewrite parseScopedPackgeName_scoped.
    destruct (indexOf "/" (String "@" rest)) as [n|] eqn:Hn; [|discriminate].
    intros [= <-]. destruct (indexOf_found _ _ _ Hn) as (Hsplit & _ & _).
    unfold scopedNameOf; simpl.
    destruct n as [|n]; [simpl in Hn; discriminate|].
    unfold substr in *; simpl in *. symmetry. exact Hsplit.
  - unfold parseScopedPackgeName. rewrite Hat. simpl. by intros [= <-].
Qed.

(** X2. The other way round: a scope that starts with [@] and holds no slash,
    joined by a slash to any name, is split into that scope and that name
    (the name may hold more slashes); a name that does not start with [@]
    comes back whole, with the empty scope. *)
Theorem parseScopedPackgeName_splits (parts : ScopedPackageName) :
  match scope parts with
  | EmptyString => forall rest, name parts <> String "@" rest
  | String c _ => c = "@"%char /\ indexOf "/" (scope parts) = None
  end ->
  parseScopedPackgeName (scopedNameOf parts) = Returned parts.
Proof.
  destruct parts as [sc nm]. unfold scopedNameOf. cbn [scope name].
  destruct sc as [|c sc].
  - apply parseScopedPackgeName_unscoped.
  - intros [-> Hscope].
    change (parseScopedPackgeName (String "@" (sc +:+ String "/" nm)) =
            Returned {| scope := String "@" sc; name := nm |}).
    rewrite parseScopedPackgeName_scoped.
    change (String "@" (sc +:+ String "/" nm))
      with (String "@" sc +:+ String "/" nm).
    rewrite (indexOf_behind _ _ _ Hscope).
    unfold substr. by rewrite substring_prefix, substrFrom_behind.
Qed.

(** X3. parseScopedPackgeName throws exactly for the names that start with [@]
    and hold no slash, and then with the message that quotes the name. *)
Theorem parseScopedPackgeName_throws_iff s :
  ((exists message, parseScopedPackgeName s = Raised message) <->
   (exists rest, s = String "@" rest) /\ indexOf "/" s = None) /\
  (forall message,
     parseScopedPackgeName s = Raised message ->
     message = "Invalid scoped name: " +:+ s).
Proof.
  split; [split|].
  - intros [message Hraised].
    destruct (String.eqb (substr 0 1 s) "@") eqn:Hat.
    + apply starts_with_at in Hat as [rest ->].
      rewrite parseScopedPackgeName_scoped in Hraised.
      destruct (indexOf "/" (String "@" rest)); [discriminate|].
      split; [by exists rest | reflexivity].
    + unfold parseScopedPackgeName in Hraised. rewrite Hat in Hraised.
      discriminate.
  - intros [[rest ->] Hnone]. rewrite parseScopedPackgeName_scoped, Hnone.
    by eexists.
  - intros message. unfold parseScopedPackgeName.
    destruct (negb _); [discriminate|].
    destruct (indexOf "/" s); [discriminate|]. by intros [= <-].
Qed.

End ScopedNameFacts.

Section FileTimestampFacts.

Import Utilities.

Implicit Types (files : gmap string Z) (inputs : list string).

(** An input passes when it exists and is not newer than the output. *)
Lemma inputsAreOlder_spec files (t : Z) inputs :
  inputsAreOlder files {| mtime := t |} inputs =
  Returned
    (forallb (fun f => match files !! f with
                       | Some t' => t' <=? t
                       | None => false
                       end) inputs).
Proof.
  induction inputs as [|f rest IH]; simpl; [reflexivity|].
  unfold existsSync, statSync.
  destruct (files !! f) as [t'|] eqn:Hf; simpl.
  - rewrite (Z.leb_antisym t t'), IH.
    by destruct (t <? t').
  - reflexivity.
Qed.

Lemma isFileTimestampCurrent_spec files (output : string) inputs :
  isFileTimestampCurrent files output inputs =
  Returned
    match files !! output with
    | Some t => forallb (fun f => match files !! f with
                                  | Some t' => t' <=? t
                                  | None => false
                                  end) inputs
    | None => false
    end.
Proof.
  unfold isFileTimestampCurrent, existsSync, statSync.
  destruct (files !! output) as [t|] eqn:Hout; simpl.
  - apply inputsAreOlder_spec.
  - reflexivity.
Qed.

Lemma forallb_Permutation {A} (f : A -> bool) (l l' : list A) :
  l ≡ₚ l' -> forallb f l = forallb f l'.
Proof.
  induction 1 as [|x l l' _ IH|x y l|l l' l'' _ IH1 _ IH2]; simpl.
  - reflexivity.
  - by rewrite IH.
  - by destruct (f x), (f y).
  - by rewrite IH1.
Qed.

(** X4. isFileTimestampCurrent never throws, although [statSync] does for a
    missing file: every [statSync] comes behind an [existsSync]. It answers
    [true] exactly when the output file exists and every input file exists
    with a time value that is not greater than that of the output (an input
    of the same time value counts as current). *)
Theorem isFileTimestampCurrent_true_iff files (output : string) inputs :
  (exists b, isFileTimestampCurrent files output inputs = Returned b) /\
  (isFileTimestampCurrent files output inputs = Returned true <->
   exists t, files !! output = Some t /\
             forall f, f ∈ inputs ->
                       exists t', files !! f = Some t' /\ t' <= t).
Proof.
  rewrite isFileTimestampCurrent_spec. split; [by eexists|].
  destruct (files !! output) as [t|]; split.
  - intros [= Hall]. exists t. split; [reflexivity|].
    intros f Hf. rewrite forallb_forall in Hall.
    specialize (Hall f (proj1 (list_elem_of_In _ _) Hf)).
    destruct (files !! f) as [t'|]; [|discriminate].
    exists t'. split; [reflexivity | by apply Z.leb_le].
  - intros (t0 & [= <-] & Hall). f_equal. apply forallb_forall.
    intros f Hf. apply list_elem_of_In in Hf.
    destruct (Hall f Hf) as (t' & -> & Hle). by apply Z.leb_le.
  - discriminate.
  - by intros (t & ? & _).
Qed.

(** X5. The answer for a list of inputs does not depend on their order, and the
    answer for two lists put together is [true] exactly when it is [true]
    for each. *)
Theorem isFileTimestampCurrent_inputs files (output : string)
    (inputs1 inputs2 : list string) :
  (inputs1 ≡ₚ inputs2 ->
   isFileTimestampCurrent files output inputs1 =
   isFileTimestampCurrent files output inputs2) /\
  (isFileTimestampCurrent files output (inputs1 ++ inputs2) = Returned true
   <-> isFileTimestampCurrent files output inputs1 = Returned true /\
       isFileTimestampCurrent files output inputs2 = Returned true).
Proof.
  rewrite !isFileTimestampCurrent_spec. split.
  - intros Hperm. destruct (files !! output); [|reflexivity].
    by rewrite (forallb_Permutation _ _ _ Hperm).
  - destruct (files !! output) as [t|].
    + rewrite forallb_app. split.
      * intros [= Hall]. apply andb_true_iff in Hall as [-> ->]. done.
      * intros [[= ->] [= ->]]. reflexivity.
    + split; [discriminate | by intros [? _]].
Qed.

End FileTimestampFacts.

Section ExecuteCommandShape.

Import Utilities.

Variable spawnSync :
  string -> list string -> SpawnSyncOptions -> SpawnSyncReturns.

Implicit Types (command wd : string) (args : list string) (quiet : bool).

(** X6. executeCommand returns normally in one case only: the spawn of the
    bare command fails with ENOENT and the spawn of the command with the
    extension carries no error. *)
Theorem executeCommand_returns_iff command args wd quiet :
  snd (executeCommand spawnSync command args wd quiet []) = Return tt <->
  exists e,
    error (spawnSync command args (optionsFor wd quiet)) = Some e /\
    errno e = "ENOENT" /\
    error (spawnSync (command +:+ ".cmd") args (optionsFor wd quiet)) = None.
Proof.
  destruct (error (spawnSync command args (optionsFor wd quiet)))
    as [e|] eqn:He.
  - destruct (String.eqb_spec (errno e) "ENOENT") as [Hno|Hno].
    + destruct (executeCommand_enoent_retries spawnSync _ _ _ _ _ He Hno)
        as [_ ->].
      destruct (error (spawnSync (command +:+ ".cmd") args
                         (optionsFor wd quiet))) as [e'|] eqn:He'.
      * split; [discriminate | by intros (? & _ & _ & ?)].
      * split; [by exists e | reflexivity].
    + destruct (executeCommand_other_error_throws spawnSync _ _ _ _ _ He Hno)
        as [_ ->].
      split; [discriminate | intros (e' & [= <-] & ? & _); done].
  - destruct (executeCommand_without_error_throws spawnSync _ _ _ _ He)
      as [_ ->].
    split; [discriminate | by intros (? & ? & _)].
Qed.

(** X7. executeCommand spawns once or twice: first the bare command; then,
    only when that spawn failed with ENOENT, the command with the extension
    [.cmd], with the same arguments and options. *)
Theorem executeCommand_spawn_log command args wd quiet :
  fst (executeCommand spawnSync command args wd quiet []) =
  {| spawnedCommand := command; spawnedArgs := args;
     spawnedOptions := optionsFor wd quiet |}
  :: match error (spawnSync command args (optionsFor wd quiet)) with
     | Some e =>
         if String.eqb (errno e) "ENOENT"
         then [ {| spawnedCommand := command +:+ ".cmd";
                   spawnedArgs := args;
                   spawnedOptions := optionsFor wd quiet |} ]
         else []
     | None => []
     end.
Proof.
  unfold executeCommand, Utilities.bind, spawn, readErrno.
  fold (optionsFor wd quiet). simpl.
  destruct (error (spawnSync command args (optionsFor wd quiet)))
    as [e|] eqn:He; simpl; [|reflexivity].
  destruct (String.eqb (errno e) "ENOENT"); simpl.
  - by destruct (error (spawnSync (command +:+ ".cmd") args
                          (optionsFor wd quiet))).
  - by rewrite He.
Qed.

End ExecuteCommandShape.

(* ================================================================== *)
(** * More properties of the parser *)
(* ================================================================== *)

Section ParserFacts.

Context {G : Type} `{Engine : ArgumentParser G}.
Local Open Scope driver_scope.

Implicit Types (w : World G) (args : option (list string)).
Implicit Types (a : CommandLineAction) (err : JsError).

(** ** The registry under calls and registrations *)

(** X10. A call of an entry point, whatever its arguments and its outcome, never
    touches the registry: the [actions] getter, [tryGetAction] and
    [getAction] answer after the call as they did before. *)
Theorem calls_keep_registry (entry : EntryPoint) args w (name : string) :
  snd (actions (after (call entry args) w)) = snd (actions w) /\
  snd (tryGetAction name (after (call entry args) w)) =
    snd (tryGetAction name w) /\
  snd (getAction name (after (call entry args) w)) =
    snd (getAction name w).
Proof.
  destruct (call_frame entry args w) as (_ & Hactions & Hbyname & _).
  unfold actions, getAction, bind, tryGetAction, gets; simpl.
  rewrite Hactions, Hbyname. repeat split.
  by destruct (_actionsByName (parser w) !! name).
Qed.

Lemma addAction_keeps_state a w :
  _executed (parser (after (addAction a) w)) = _executed (parser w) /\
  selectedAction (parser (after (addAction a) w)) =
    selectedAction (parser w) /\
  (forall b, b ∈ _actions (parser w) ->
             b ∈ _actions (parser (after (addAction a) w))).
Proof.
  unfold after. rewrite addAction_spec.
  destruct (snd (_buildParser a (_argumentParser (parser w)))); simpl;
    [done|].
  repeat split. intros b Hb. apply elem_of_app. by left.
Qed.

Lemma addActions_cons a (l : list CommandLineAction) w :
  addActions (a :: l) w =
  match snd (addAction a w) with
  | Return _ => addActions l (after (addAction a) w)
  | Throw err => (after (addAction a) w, Throw err)
  end.
Proof.
  simpl. unfold bind at 1, after.
  by destruct (addAction a w) as [w' [[]|err]].
Qed.

Lemma addAction_throws a w err :
  snd (addAction a w) = Throw err <->
  snd (_buildParser a (_argumentParser (parser w))) = Some err.
Proof.
  rewrite addAction_spec.
  destruct (snd (_buildParser a (_argumentParser (parser w)))); simpl;
    split; congruence.
Qed.

Lemma addAction_returns a w :
  snd (addAction a w) = Return tt ->
  snd (actions (after (addAction a) w)) =
    Return (_actions (parser w) ++ [a]).
Proof.
  unfold after, actions, gets. rewrite addAction_spec.
  by destruct (snd (_buildParser a (_argumentParser (parser w)))).
Qed.

Lemma addAction_thrown_keeps_actions a w err :
  snd (addAction a w) = Throw err ->
  _actions (parser (after (addAction a) w)) = _actions (parser w).
Proof.
  unfold after. rewrite addAction_spec.
  by destruct (snd (_buildParser a (_argumentParser (parser w)))).
Qed.

(** X11. A series of registrations either completes, and the [actions]
    getter then gives the old list followed by all the actions of the
    series, in the order of the calls; or it ends at the first action
    whose [_buildParser] throws, in the grammar the calls before it have
    left, with that error, and the getter then gives the old list followed
    by exactly the actions in front of that one. The flag and the selected
    action are not touched. *)
Theorem addActions_in_order (l : list CommandLineAction) w :
  (snd (addActions l w) = Return tt /\
   snd (actions (after (addActions l) w)) =
     Return (_actions (parser w) ++ l)
   \/
   exists registered a rest err,
     l = registered ++ a :: rest /\
     snd (addActions registered w) = Return tt /\
     snd (_buildParser a
            (_argumentParser (parser (after (addActions registered) w)))) =
       Some err /\
     snd (addActions l w) = Throw err /\
     snd (actions (after (addActions l) w)) =
       Return (_actions (parser w) ++ registered)) /\
  _executed (parser (after (addActions l) w)) = _executed (parser w) /\
  selectedAction (parser (after (addActions l) w)) =
    selectedAction (parser w).
Proof.
  revert w. induction l as [|a l IH]; intros w.
  - split; [left|done]. unfold actions, gets, after; simpl.
    by rewrite app_nil_r.
  - destruct (addAction_keeps_state a w) as (Hx & Hs & _).
    pose proof (addActions_cons a l w) as Hcons.
    destruct (snd (addAction a w)) as [[]|err] eqn:Hadd.
    + pose proof (addAction_returns a w Hadd) as Hactions.
      destruct (IH (after (addAction a) w)) as (Hseries & Hx' & Hs').
      unfold actions, gets, after in *. simpl in Hactions.
      injection Hactions as Hactions.
      rewrite Hcons. split; [|by rewrite Hx', Hs'].
      destruct Hseries
        as [[Hdone Hall]
           |(registered & b & rest & err & -> & Hdone & Hthrow & Hend & Hall)].
      * left. split; [exact Hdone|]. simpl in *. rewrite Hall, Hactions.
        by rewrite <- app_assoc.
      * right. exists (a :: registered), b, rest, err.
        pose proof (addActions_cons a registered w) as Hcons'.
        rewrite Hadd in Hcons'. unfold after in Hcons'. rewrite Hcons'.
        simpl in *. rewrite Hall, Hactions.
        repeat split; try done. by rewrite <- app_assoc.
    + pose proof (addAction_thrown_keeps_actions a w err Hadd) as Hkeep.
      unfold actions, gets, after in *.
      rewrite Hcons. split; [|done]. right. exists [], a, l, err. simpl.
      rewrite Hkeep, app_nil_r.
      repeat split; try done. by apply addAction_throws.
Qed.

(** ** Lookups on the parsers a program can build *)

(** X12. On every parser a program can build, a lookup never invents: what
    [tryGetAction] and [getAction] return under a name is a registered
    action with that name, and they find nothing only for a name that no
    registered action has; [getAction] then throws the error that quotes
    the name. *)
Theorem lookup_is_sound w (name : string) :
  Reachable w ->
  match snd (tryGetAction name w) with
  | Return (Some a) =>
      a ∈ _actions (parser w) /\ actionName a = name /\
      snd (getAction name w) = Return a
  | Return None =>
      (name ∉ actionName <$> _actions (parser w)) /\
      snd (getAction name w) = Throw (notDefined name)
  | Throw _ => False
  end.
Proof.
  intros Hreach. pose proof (reachable_invariant w Hreach) as Hinv.
  unfold getAction, bind, tryGetAction, gets; simpl.
  rewrite Hinv, byName_lookup. unfold lastNamed.
  destruct (find (nameIs name) (reverse (_actions (parser w))))
    as [a|] eqn:Hfind.
  - destruct (firstNamed_found _ _ _ Hfind) as [Hin Hname].
    rewrite elem_of_reverse in Hin. done.
  - split; [|reflexivity]. intros Hin.
    apply list_elem_of_fmap in Hin as (a & -> & Ha).
    assert (nameIs (actionName a) a = false) as Hfalse.
    { apply (find_none _ _ Hfind). apply list_elem_of_In.
      by apply elem_of_reverse. }
    by apply nameIs_false in Hfalse.
Qed.

(** What a call does to the selected action: nothing, or it selects a
    registered action. *)
Lemma tryBlock_selected args w :
  selectedAction (parser (after (tryBlock args) w)) =
    selectedAction (parser w) \/
  exists a, selectedAction (parser (after (tryBlock args) w)) = Some a /\
            a ∈ _actions (parser w).
Proof.
  unfold after, tryBlock, bind, gets, modify, ret, throw; simpl.
  destruct (_executed (parser w)) eqn:Hx; simpl; [by left|].
  destruct args as [given|]; simpl.
  all: match goal with |- context [(length ?t =? 0)%nat] =>
         destruct t as [|t0 ts] end; simpl; [by left|].
  all: unfold parseArgsM; simpl;
    match goal with |- context [parseArgs ?g ?t ?p] =>
      destruct (parseArgs g t p) as [p' [err|data]] end; simpl; [by left|].
  all: rewrite dispatch_spec; simpl;
    destruct (firstNamed (action data) (_actions (parser w))) as [a|]
      eqn:Hfirst; simpl.
  all: try (right; exists a;
            rewrite (proj1 (onExecute_frame _)); simpl;
            split; [reflexivity | by apply (firstNamed_found _ _ _ Hfirst)]).
  all: left; destruct (selectedAction (parser w)) as [stale|] eqn:Hs;
    simpl; [|done].
  all: rewrite (proj1 (onExecute_frame _)); simpl; done.
Qed.

(** X13. On every parser a program can build, a selected action is a registered
    action, and an action is selected only on a parser that was
    executed. *)
Theorem selected_action_is_registered w a :
  Reachable w ->
  selectedAction (parser w) = Some a ->
  a ∈ _actions (parser w) /\ _executed (parser w) = true.
Proof.
  intros Hreach. revert a.
  induction Hreach as [options globals p|b w _ IH|entry args w _ IH|f w _ IH];
    intros a.
  - discriminate.
  - destruct (addAction_keeps_state b w) as (-> & -> & Hgrow).
    intros Hs. destruct (IH a Hs) as [Hin Hx]. split; [by apply Hgrow|done].
  - destruct (call_frame entry args w) as (Hx & Hactions & _).
    destruct (call_state entry args w) as (Hp & _).
    rewrite Hx, Hactions, Hp.
    destruct (tryBlock_selected args w) as [->|(b & -> & Hb)].
    + intros Hs. by destruct (IH a Hs).
    + by intros [= <-].
  - exact (IH a).
Qed.

(** ** The paths of a first call *)

(** X14. The grammar asks to leave with code 0 (a help request): the call
    resolves through both entry points, [execute] with [true]; the driver
    writes the message of the signal, if there is one, to standard output
    and nothing else: standard error and the exit code stay as the grammar
    left them, and no action is selected or run. *)
Theorem help_request_resolves args w (tokens : list string) p'
    (text : string) :
  _executed (parser w) = false ->
  effectiveArgs args w = tokens ->
  tokens <> [] ->
  parseArgs (_argumentParser (parser w)) tokens (process w) =
    (p', inl (CommandLineParserExitError 0 text)) ->
  snd (executeWithoutErrorHandling args w) = Return (Resolved tt) /\
  snd (execute args w) = Return (Resolved true) /\
  process (after (execute args) w) =
    (if truthyString text then consoleLog (Text text) p' else p') /\
  selectedAction (parser (after (execute args) w)) =
    selectedAction (parser w) /\
  actionValues (after (execute args) w) = actionValues w.
Proof.
  intros Hx Hargs Hne Hparse.
  pose proof (thrown_fault_is_recovered _ _ _ _
                (tryBlock_parse_error _ _ _ _ _ Hx Hargs Hne Hparse)) as Hr.
  rewrite recover_zero in Hr.
  unfold after. rewrite (execute_spec _ _ _ _ Hr), Hr. simpl.
  by destruct (truthyString text).
Qed.

(** X15. The grammar refuses the arguments with a signal of nonzero code:
    executeWithoutErrorHandling hands that signal on as the rejection,
    having written nothing; [execute] resolves to [false], writes the
    message of the signal (if any) to standard error and sets the exit code
    to the code of the signal unless a nonzero one is set. No action is
    selected or run. *)
Theorem grammar_error_is_reported args w (tokens : list string) p'
    (code : Z) (text : string) :
  _executed (parser w) = false ->
  effectiveArgs args w = tokens ->
  tokens <> [] ->
  parseArgs (_argumentParser (parser w)) tokens (process w) =
    (p', inl (CommandLineParserExitError code text)) ->
  code <> 0 ->
  snd (executeWithoutErrorHandling args w) =
    Return (Rejected (CommandLineParserExitError code text)) /\
  process (after (executeWithoutErrorHandling args) w) = p' /\
  snd (execute args w) = Return (Resolved false) /\
  stderr (process (after (execute args) w)) =
    stderr p' ++ (if truthyString text then [Text text] else []) /\
  exitCode (process (after (execute args) w)) =
    exitCodeAfter code (exitCode p') /\
  stdout (process (after (execute args) w)) = stdout p' /\
  selectedAction (parser (after (execute args) w)) =
    selectedAction (parser w) /\
  actionValues (after (execute args) w) = actionValues w.
Proof.
  intros Hx Hargs Hne Hparse Hcode.
  pose proof (thrown_fault_is_recovered _ _ _ _
                (tryBlock_parse_error _ _ _ _ _ Hx Hargs Hne Hparse)) as Hr.
  rewrite recover_nonzero in Hr by done.
  unfold after. rewrite (execute_spec _ _ _ _ Hr), Hr. simpl.
  destruct (reported_exit code text p') as (Herr & Hexit & Hout & _).
  done.
Qed.

Lemma tryBlock_unmatched args w (tokens : list string) p' data :
  _executed (parser w) = false ->
  effectiveArgs args w = tokens ->
  tokens <> [] ->
  parseArgs (_argumentParser (parser w)) tokens (process w) =
    (p', inr data) ->
  firstNamed (action data) (_actions (parser w)) = None ->
  selectedAction (parser w) = None ->
  tryBlock args w =
  (withParser
     (fun p => setParsedGlobals
                 (Some (convertParsedData (globalParameters p) data)) p)
     (withProcess (fun _ => p') (withParser (setExecuted true) w)),
   Throw (Error "Unrecognized action")).
Proof.
  intros Hx Hargs Hne Hparse Hfirst Hnone.
  unfold tryBlock, bind, gets, modify, ret; simpl.
  rewrite Hx. unfold effectiveArgs in Hargs.
  destruct args as [given|]; simpl; rewrite Hargs;
    (destruct tokens as [|t ts]; [done|]); simpl;
    unfold parseArgsM; simpl; rewrite Hparse; simpl;
    rewrite dispatch_spec; simpl; rewrite Hfirst; simpl;
    rewrite Hnone; reflexivity.
Qed.

(** X16. The grammar accepts the arguments but reports an action name that no
    registered action has, on a parser with no action selected: no body
    runs and nothing is selected; executeWithoutErrorHandling is rejected
    with the error [Unrecognized action], and [execute] reports it as an
    ordinary failure, with exit code 1 unless a nonzero one is set. *)
Theorem unrecognized_action_fails args w (tokens : list string) p' data :
  _executed (parser w) = false ->
  effectiveArgs args w = tokens ->
  tokens <> [] ->
  parseArgs (_argumentParser (parser w)) tokens (process w) =
    (p', inr data) ->
  action data ∉ actionName <$> _actions (parser w) ->
  selectedAction (parser w) = None ->
  snd (executeWithoutErrorHandling args w) =
    Return (Rejected (Error "Unrecognized action")) /\
  process (after (executeWithoutErrorHandling args) w) = p' /\
  snd (execute args w) = Return (Resolved false) /\
  stderr (process (after (execute args) w)) =
    stderr p' ++ [RedText "Error: Unrecognized action"] /\
  exitCode (process (after (execute args) w)) =
    exitCodeAfter 1 (exitCode p') /\
  stdout (process (after (execute args) w)) = stdout p' /\
  selectedAction (parser (after (execute args) w)) = None /\
  actionValues (after (execute args) w) = actionValues w.
Proof.
  intros Hx Hargs Hne Hparse Hname Hnone.
  pose proof (thrown_fault_is_recovered _ _ _ _
                (tryBlock_unmatched _ _ _ _ _ Hx Hargs Hne Hparse
                   (firstNamed_absent _ _ Hname) Hnone)) as Hr.
  rewrite recover_error in Hr.
  unfold after. rewrite (execute_spec _ _ _ _ Hr), Hr. simpl.
  destruct (reported_error "Unrecognized action" p')
    as (Herr & Hexit & Hout & _).
  done.
Qed.

(** The body of the selected action starts on the process as the grammar
    left it and on the values converted for the action; what it returns or
    throws is what the [try] block ends with. *)
Lemma tryBlock_runs_body args w (tokens : list string) p' data a p''
    (c : Completion (Promise unit)) :
  _executed (parser w) = false ->
  effectiveArgs args w = tokens ->
  tokens <> [] ->
  parseArgs (_argumentParser (parser w)) tokens (process w) =
    (p', inr data) ->
  firstNamed (action data) (_actions (parser w)) = Some a ->
  _execute a (convertParsedData (parameters a) data) p' = (p'', c) ->
  tryBlock args w =
  (withProcess (fun _ => p'') (dispatched p' data a w), c).
Proof.
  intros Hx Hargs Hne Hparse Hfirst Hbody.
  rewrite (tryBlock_accepted _ _ _ _ _ _ Hx Hargs Hne Hparse Hfirst).
  unfold Action_execute; simpl. rewrite lookup_insert_eq; simpl.
  by rewrite Hbody.
Qed.

(** X17. The grammar accepts, the action is registered, its body resolves:
    [execute] resolves to [true], and the driver adds nothing of its own:
    the process after the call is the process the body left. *)
Theorem successful_action_resolves_true args w (tokens : list string) p'
    data a p'' :
  _executed (parser w) = false ->
  effectiveArgs args w = tokens ->
  tokens <> [] ->
  parseArgs (_argumentParser (parser w)) tokens (process w) =
    (p', inr data) ->
  firstNamed (action data) (_actions (parser w)) = Some a ->
  _execute a (convertParsedData (parameters a) data) p' =
    (p'', Return (Resolved tt)) ->
  snd (execute args w) = Return (Resolved true) /\
  snd (executeWithoutErrorHandling args w) = Return (Resolved tt) /\
  process (after (execute args) w) = p''.
Proof.
  intros Hx Hargs Hne Hparse Hfirst Hbody.
  pose proof (returned_promise_is_handed_on _ _ _ _
                (tryBlock_runs_body _ _ _ _ _ _ _ _ Hx Hargs Hne Hparse
                   Hfirst Hbody)) as Hr.
  unfold after. rewrite (execute_spec _ _ _ _ Hr), Hr. done.
Qed.

(** X18. The body of the action fails with an error that is no exit signal,
    thrown or as the rejection of its promise: [execute] resolves to
    [false] and appends one red error line to what the body wrote on
    standard error; an exit code the body set to a nonzero value is kept,
    otherwise the exit code becomes 1. *)
Theorem failing_action_keeps_its_exit_code args w (tokens : list string)
    p' data a p'' (c : Completion (Promise unit)) (text : string) :
  _executed (parser w) = false ->
  effectiveArgs args w = tokens ->
  tokens <> [] ->
  parseArgs (_argumentParser (parser w)) tokens (process w) =
    (p', inr data) ->
  firstNamed (action data) (_actions (parser w)) = Some a ->
  _execute a (convertParsedData (parameters a) data) p' = (p'', c) ->
  c = Throw (Error text) \/ c = Return (Rejected (Error text)) ->
  snd (executeWithoutErrorHandling args w) =
    Return (Rejected (Error text)) /\
  snd (execute args w) = Return (Resolved false) /\
  stderr (process (after (execute args) w)) =
    stderr p'' ++
    [RedText ("Error: " +:+
              trim (if truthyString text then text
                    else "An unknown error occurred"))] /\
  exitCode (process (after (execute args) w)) =
    exitCodeAfter 1 (exitCode p'') /\
  stdout (process (after (execute args) w)) = stdout p'' /\
  selectedAction (parser (after (execute args) w)) = Some a.
Proof.
  intros Hx Hargs Hne Hparse Hfirst Hbody Hc.
  pose proof (tryBlock_runs_body _ _ _ _ _ _ _ _ Hx Hargs Hne Hparse
                Hfirst Hbody) as Ht.
  assert (executeWithoutErrorHandling args w =
          (withProcess (fun _ => p'') (dispatched p' data a w),
           Return (Rejected (Error text)))) as Hr.
  { destruct Hc as [-> | ->].
    - rewrite (thrown_fault_is_recovered _ _ _ _ Ht). apply recover_error.
    - apply (returned_promise_is_handed_on _ _ _ _ Ht). }
  unfold after. rewrite (execute_spec _ _ _ _ Hr), Hr. simpl.
  destruct (reported_error text p'') as (Herr & Hexit & Hout & _).
  done.
Qed.

End ParserFacts.

(* ================================================================== *)
(** * Properties of createFolderWithRetry *)
(* ================================================================== *)

Section CreateFolderFacts.

Import Utilities.

Context {Time : Type}.
Variable waitedTooLong : Time -> Time -> bool.
Variable totalSeconds : Time -> Time -> string.
Variable EOL : string.

Implicit Types (startTime endTime : Time).
Implicit Types (failures rest : list (Attempt Time)).

(** Failures within the limit are passed over: each costs one call of
    [mkdirSync] and sets [looped]. *)
Lemma retryLoop_passes_failures startTime failures rest (calls : nat)
    (looped : bool) :
  Forall (withinLimit Time waitedTooLong startTime) failures ->
  retryLoop Time waitedTooLong EOL startTime (failures ++ rest) calls looped =
  retryLoop Time waitedTooLong EOL startTime rest
    (calls + length failures)
    (match failures with [] => looped | _ :: _ => true end).
Proof.
  intros Hall. revert calls looped.
  induction Hall as [|turn failures Hturn _ IH]; intros calls looped; simpl.
  - by rewrite Nat.add_0_r.
  - destruct turn as [|message t]; [done|]. simpl in Hturn.
    rewrite Hturn, IH, Nat.add_succ_r. simpl. by destruct failures.
Qed.

(** X8. createFolderWithRetry returns at the first turn in which [mkdirSync]
    succeeds, when every failure before it came within the wait limit: it
    has called [mkdirSync] once per failure and once more, and it writes the
    line about the stall exactly when there was a failure. *)
Theorem createFolderWithRetry_returns_at_first_success
    (folderName : string) startTime endTime failures rest :
  Forall (withinLimit Time waitedTooLong startTime) failures ->
  createFolderWithRetry Time waitedTooLong totalSeconds EOL folderName
    startTime (failures ++ Created :: rest) endTime =
  Some {| mkdirCalls := length failures + 1;
          logged :=
            match failures with
            | [] => []
            | _ :: _ =>
                ["createFolderWithRetry() stalled for "
                 +:+ totalSeconds endTime startTime +:+ " seconds"]
            end;
          outcome := Returned tt |}.
Proof.
  intros Hall. unfold createFolderWithRetry.
  rewrite (retryLoop_passes_failures _ _ _ _ _ Hall). simpl.
  rewrite Nat.add_1_r. by destruct failures.
Qed.

(** X9. createFolderWithRetry gives up at the first failure that comes after
    the wait limit, and at no failure that comes within it: as long as
    every turn is a failure within the limit the loop goes on. The error it
    throws carries the message of that last failure, a line end and the
    hint about file locks; nothing is written to the console. *)
Theorem createFolderWithRetry_gives_up_after_limit
    (folderName : string) startTime endTime failures rest
    (message : string) (currentTime : Time) :
  Forall (withinLimit Time waitedTooLong startTime) failures ->
  createFolderWithRetry Time waitedTooLong totalSeconds EOL folderName
    startTime failures endTime = None /\
  (waitedTooLong currentTime startTime = true ->
   createFolderWithRetry Time waitedTooLong totalSeconds EOL folderName
     startTime (failures ++ Failed message currentTime :: rest) endTime =
   Some {| mkdirCalls := length failures + 1;
           logged := [];
           outcome := Raised (message +:+ EOL +:+ fileLockHint) |}).
Proof.
  intros Hall. unfold createFolderWithRetry. split.
  - rewrite <- (app_nil_r failures).
    by rewrite (retryLoop_passes_failures _ _ _ _ _ Hall).
  - intros Hlate. rewrite (retryLoop_passes_failures _ _ _ _ _ Hall). simpl.
    by rewrite Hlate, Nat.add_1_r.
Qed.

End CreateFolderFacts.

(* ================================================================== *)
(** * Properties of the container keys *)
(* ================================================================== *)

Section ContainerKeyFacts.

Import Utilities ApiModel.

Implicit Types (s t front back : string) (c : ascii).

Lemma append_assoc s t back : (s +:+ t) +:+ back = s +:+ (t +:+ back).
Proof.
  induction s as [|c s IH]; [reflexivity|].
  change (String c ((s +:+ t) +:+ back) = String c (s +:+ (t +:+ back))).
  by rewrite IH.
Qed.

(** Two strings with one tail are equal in front of it. *)
Lemma append_same_tail s t back : s +:+ back = t +:+ back -> s = t.
Proof.
  intros Heq.
  assert (String.length s = String.length t) as Hlen.
  { apply (f_equal String.length) in Heq.
    rewrite !length_append in Heq. lia. }
  revert t Heq Hlen. induction s as [|c s IH]; intros [|c' t]; try done.
  change (String c (s +:+ back) = String c' (t +:+ back) ->
          S (String.length s) = S (String.length t) -> String c s = String c' t).
  intros [= -> Heq] [= Hlen]. by rewrite (IH t Heq Hlen).
Qed.

Lemma indexOf_present c front back :
  indexOf c (front +:+ String c back) <> None.
Proof.
  induction front as [|c' front IH].
  - change (indexOf c (String c back) <> None). simpl.
    by rewrite (proj2 (Ascii.eqb_eq c c) eq_refl).
  - change (indexOf c (String c' (front +:+ String c back)) <> None). simpl.
    destruct (Ascii.eqb c' c); [done|].
    by destruct (indexOf c (front +:+ String c back)).
Qed.

(** A string splits in one way only at its last occurrence of a
    character. *)
Lemma split_at_last c s t (back1 back2 : string) :
  indexOf c back1 = None ->
  indexOf c back2 = None ->
  s +:+ String c back1 = t +:+ String c back2 ->
  s = t /\ back1 = back2.
Proof.
  intros H1 H2. revert t.
  induction s as [|c1 s IH]; intros [|c2 t] Heq;
    unfold String.append in Heq; simpl in Heq; fold String.append in Heq.
  - by injection Heq as ->.
  - injection Heq as <- ->. by destruct (indexOf_present c t back2).
  - injection Heq as -> <-. by destruct (indexOf_present c s back1).
  - injection Heq as -> Heq. by destruct (IH t Heq) as [-> ->].
Qed.

(** A number in decimal holds no bar. *)
Lemma pretty_N_go_no_bar (x : N) s :
  indexOf "|" s = None -> indexOf "|" (pretty_N_go x s) = None.
Proof.
  revert s. induction (N.lt_wf_0 x) as [x _ IH]; intros s Hs.
  destruct (decide (x = 0)%N) as [->|Hx]; [by rewrite pretty_N_go_0|].
  rewrite pretty_N_go_step by lia.
  apply IH; [apply N.div_lt; lia|].
  simpl. rewrite Hs. unfold pretty_N_char. by repeat case_match.
Qed.

Lemma pretty_N_no_bar (x : N) : indexOf "|" (pretty x) = None.
Proof.
  unfold pretty, pretty_N. case_decide; [reflexivity|].
  by apply pretty_N_go_no_bar.
Qed.

Variable ApiItemKind_Function ApiItemKind_Enum : string.

(** X19. ApiFunction.getContainerKey tells the overloads apart: two keys are
    equal only for the same name and the same overload index, also for
    names that hold bars. *)
Theorem ApiFunction_getContainerKey_injective (name1 name2 : string)
    (overloadIndex1 overloadIndex2 : N) :
  ApiFunction_getContainerKey ApiItemKind_Function name1 overloadIndex1 =
  ApiFunction_getContainerKey ApiItemKind_Function name2 overloadIndex2 ->
  name1 = name2 /\ overloadIndex1 = overloadIndex2.
Proof.
  unfold ApiFunction_getContainerKey. intros Heq.
  change ((name1 +:+ "|" +:+ ApiItemKind_Function +:+
           String "|" (pretty overloadIndex1)) =
          (name2 +:+ "|" +:+ ApiItemKind_Function +:+
           String "|" (pretty overloadIndex2))) in Heq.
  rewrite <- !append_assoc in Heq.
  apply split_at_last in Heq as [Hfront Hindex];
    [|apply pretty_N_no_bar..].
  split; [|by apply (inj pretty)].
  rewrite !append_assoc in Hfront. by apply append_same_tail in Hfront.
Qed.

(** X20. ApiEnum.getContainerKey gives different keys to different names. *)
Theorem ApiEnum_getContainerKey_injective (name1 name2 : string) :
  ApiEnum_getContainerKey ApiItemKind_Enum name1 =
  ApiEnum_getContainerKey ApiItemKind_Enum name2 ->
  name1 = name2.
Proof. unfold ApiEnum_getContainerKey. apply append_same_tail. Qed.

End ContainerKeyFacts.

(* ================================================================== *)
(** * Instances of the further properties *)
(* ================================================================== *)

Lemma parseScopedPackgeName_joins_back_witness :
  Utilities.parseScopedPackgeName "@my-scope/myproject" =
    Utilities.Returned {| Utilities.scope := "@my-scope";
                          Utilities.name := "myproject" |} /\
  Utilities.scopedNameOf {| Utilities.scope := "@my-scope";
                            Utilities.name := "myproject" |} =
    "@my-scope/myproject".
Proof.
  split; [reflexivity|].
  apply (parseScopedPackgeName_joins_back "@my-scope/myproject").
  reflexivity.
Defined.

Lemma parseScopedPackgeName_splits_witness :
  Utilities.parseScopedPackgeName "@my-scope/lib/index" =
  Utilities.Returned {| Utilities.scope := "@my-scope";
                        Utilities.name := "lib/index" |}.
Proof.
  apply (parseScopedPackgeName_splits
           {| Utilities.scope := "@my-scope";
              Utilities.name := "lib/index" |}).
  split; reflexivity.
Defined.

Lemma isFileTimestampCurrent_inputs_witness :
  Utilities.isFileTimestampCurrent
    {[ "out.js" := 30; "a.ts" := 10; "b.ts" := 30 ]} "out.js"
    ["a.ts"; "b.ts"] =
  Utilities.isFileTimestampCurrent
    {[ "out.js" := 30; "a.ts" := 10; "b.ts" := 30 ]} "out.js"
    ["b.ts"; "a.ts"].
Proof.
  apply (proj1 (isFileTimestampCurrent_inputs
                  {[ "out.js" := 30; "a.ts" := 10; "b.ts" := 30 ]} "out.js"
                  ["a.ts"; "b.ts"] ["b.ts"; "a.ts"])).
  apply perm_swap.
Defined.

Lemma createFolderWithRetry_returns_at_first_success_witness :
  Utilities.createFolderWithRetry Z (fun now start => 7000 <? now - start)
    (fun now start => pretty ((now - start) / 1000))
    (String (Ascii.ascii_of_nat 10) EmptyString) "temp" 0
    [Utilities.Failed "EPERM" 120; Utilities.Failed "EPERM" 6900;
     Utilities.Created] 7200 =
  Some {| Utilities.mkdirCalls := 3;
          Utilities.logged :=
            ["createFolderWithRetry() stalled for 7 seconds"];
          Utilities.outcome := Utilities.Returned tt |}.
Proof.
  assert (Forall (Utilities.withinLimit Z
                    (fun now start => 7000 <? now - start) 0)
                 [Utilities.Failed "EPERM" 120; Utilities.Failed "EPERM" 6900])
    as Hwithin by (repeat constructor).
  exact (createFolderWithRetry_returns_at_first_success
           (fun now start => 7000 <? now - start)
           (fun now start => pretty ((now - start) / 1000))
           (String (Ascii.ascii_of_nat 10) EmptyString) "temp" 0 7200
           [Utilities.Failed "EPERM" 120; Utilities.Failed "EPERM" 6900] []
           Hwithin).
Defined.

Lemma createFolderWithRetry_gives_up_after_limit_witness :
  Utilities.outcome <$>
    Utilities.createFolderWithRetry Z (fun now start => 7000 <? now - start)
      (fun now start => pretty ((now - start) / 1000))
      (String (Ascii.ascii_of_nat 10) EmptyString) "temp" 0
      [Utilities.Failed "EPERM" 120; Utilities.Failed "EBUSY" 7001;
       Utilities.Created] 7200 =
  Some (Utilities.Raised
          ("EBUSY" +:+ String (Ascii.ascii_of_nat 10) EmptyString
           +:+ Utilities.fileLockHint)).
Proof.
  destruct (createFolderWithRetry_gives_up_after_limit
              (fun now start => 7000 <? now - start)
              (fun now start => pretty ((now - start) / 1000))
              (String (Ascii.ascii_of_nat 10) EmptyString) "temp" 0 7200
              [Utilities.Failed "EPERM" 120] [Utilities.Created]
              "EBUSY" 7001) as [_ Hlate]; [repeat constructor|].
  simpl in Hlate. rewrite Hlate by reflexivity. reflexivity.
Defined.

Lemma ApiFunction_getContainerKey_injective_witness :
  ApiModel.ApiFunction_getContainerKey "Function" "getAverage" 2 =
    "getAverage|Function|2" /\
  ("getAverage" = "getAverage" /\ 2%N = 2%N).
Proof.
  split; [reflexivity|].
  apply (ApiFunction_getContainerKey_injective "Function"
           "getAverage" "getAverage" 2 2).
  reflexivity.
Defined.

Lemma ApiEnum_getContainerKey_injective_witness :
  ApiModel.ApiEnum_getContainerKey "Enum" "FontSizes" = "FontSizes|Enum" /\
  "FontSizes" = "FontSizes".
Proof.
  split; [reflexivity|].
  apply (ApiEnum_getContainerKey_injective "Enum" "FontSizes" "FontSizes").
  reflexivity.
Defined.

Lemma tool_reachable : Reachable tool.
Proof. unfold tool, freshTool. repeat constructor. Qed.

Lemma lookup_is_sound_witness :
  snd (getAction "quit" tool) = Return quitAction /\
  snd (getAction "deploy" tool) = Throw (notDefined "deploy").
Proof.
  pose proof (lookup_is_sound tool "quit" tool_reachable) as Hquit.
  pose proof (lookup_is_sound tool "deploy" tool_reachable) as Hdeploy.
  vm_compute in Hquit, Hdeploy |- *.
  split; [apply Hquit | apply Hdeploy].
Defined.

Lemma selected_action_is_registered_witness :
  buildAction ∈
    _actions (parser (after (call ViaExecute (Some ["build"])) tool)).
Proof.
  apply (selected_action_is_registered
           (after (call ViaExecute (Some ["build"])) tool) buildAction).
  - apply reach_call, tool_reachable.
  - reflexivity.
Defined.

Lemma help_request_resolves_witness :
  snd (execute (Some ["-h"]) tool) = Return (Resolved true) /\
  exitCode (process (after (execute (Some ["-h"])) tool)) = None /\
  selectedAction (parser (after (execute (Some ["-h"])) tool)) = None.
Proof.
  destruct (help_request_resolves (Some ["-h"]) tool ["-h"]
              (consoleLog (Text "usage: tool [-h] <command> ...")
                 emptyProcess) EmptyString)
    as (_ & Hresult & Hprocess & Hselected & _);
    [reflexivity | reflexivity | discriminate | reflexivity |].
  split; [exact Hresult|]. split; [by rewrite Hprocess | exact Hselected].
Defined.

Lemma grammar_error_is_reported_witness :
  snd (execute (Some ["nope"]) tool) = Return (Resolved false) /\
  exitCode (process (after (execute (Some ["nope"])) tool)) = Some 2 /\
  selectedAction (parser (after (execute (Some ["nope"])) tool)) = None.
Proof.
  destruct (grammar_error_is_reported (Some ["nope"]) tool ["nope"]
              (consoleError (Text "usage: tool [-h] <command> ...")
                 emptyProcess) 2 "invalid choice: nope")
    as (_ & _ & Hresult & _ & Hcode & _ & Hselected & _);
    [reflexivity | reflexivity | discriminate | reflexivity | discriminate |].
  split; [exact Hresult|]. split; [exact Hcode | exact Hselected].
Defined.

Lemma unrecognized_action_fails_witness :
  snd (executeWithoutErrorHandling (Some ["ghost"]) toolWithGhostCommand) =
    Return (Rejected (Error "Unrecognized action")) /\
  exitCode (process (after (execute (Some ["ghost"])) toolWithGhostCommand))
    = Some 1.
Proof.
  destruct (unrecognized_action_fails (Some ["ghost"]) toolWithGhostCommand
              ["ghost"] emptyProcess
              {| action := "ghost"; rawValues := ∅ |})
    as (Hrejected & _ & _ & _ & Hcode & _);
    [ reflexivity | reflexivity | discriminate | reflexivity
    | apply (bool_decide_unpack _); vm_compute; exact I | reflexivity |].
  split; [exact Hrejected | exact Hcode].
Defined.

Lemma successful_action_resolves_true_witness :
  snd (execute (Some ["build"; "--verbose"]) tool) =
    Return (Resolved true) /\
  process (after (execute (Some ["build"; "--verbose"])) tool) =
    consoleLog (Text "building") emptyProcess.
Proof.
  destruct (successful_action_resolves_true
              (Some ["build"; "--verbose"]) tool ["build"; "--verbose"]
              emptyProcess
              {| action := "build"; rawValues := flagsOf ["--verbose"] |}
              buildAction (consoleLog (Text "building") emptyProcess))
    as (Hresult & _ & Hprocess);
    [ reflexivity | reflexivity | discriminate | reflexivity | reflexivity
    | reflexivity |].
  split; [exact Hresult | exact Hprocess].
Defined.

Lemma failing_action_keeps_its_exit_code_witness :
  snd (execute (Some ["fail"]) tool) = Return (Resolved false) /\
  stderr (process (after (execute (Some ["fail"])) tool)) =
    [RedText "Error: boom"] /\
  exitCode (process (after (execute (Some ["fail"])) tool)) = Some 7.
Proof.
  destruct (failing_action_keeps_its_exit_code (Some ["fail"]) tool ["fail"]
              emptyProcess {| action := "fail"; rawValues := ∅ |}
              failAction (setExitCode 7 emptyProcess)
              (Return (Rejected (Error "  boom "))) "  boom ")
    as (_ & Hresult & Herr & Hcode & _);
    [ reflexivity | reflexivity | discriminate | reflexivity | reflexivity
    | reflexivity | by right |].
  split; [exact Hresult|]. split; [exact Herr | exact Hcode].
Defined.
